(* ====================================================================== *)
(*  nengolib.signal.lyapunov : gramians, balancing, Hankel singular       *)
(*  values and the L1-norm bound refinement, as a shallow embedding.      *)
(*                                                                        *)
(*  Numbers: numpy's float64 values are idealised as the elements of a    *)
(*  real closed field F (exact arithmetic, exact square roots).  The one  *)
(*  place where the IEEE behaviour decides the control flow, a quotient   *)
(*  whose divisor is zero, is written out (np_div).                       *)
(*  Arrays: state-space matrices are 'M[F]_(_, _); time series (one entry *)
(*  per sample) are sequences.                                            *)
(*  Collaborators that are not part of lyapunov.py (scipy's solvers and   *)
(*  decompositions, fminbound, and nengolib's LinearSystem methods and    *)
(*  cont2discrete) are Variables of the sections below.                   *)
(* ====================================================================== *)

From Stdlib Require Import String.
From HB Require Import structures.
From mathcomp Require Import boot order algebra.
From mathcomp Require Import ring_tactic field_tactic arithmetic_tactic.
From mathcomp Require Import algC.

Set Implicit Arguments.
Unset Strict Implicit.
Unset Printing Implicit Defensive.

Import GRing.Theory Order.Theory Num.Theory Num.Def.
Local Open Scope ring_scope.

(* ---------------------------------------------------------------------- *)
(*  Exceptions and results                                                *)
(* ---------------------------------------------------------------------- *)

(* The exceptions lyapunov.py raises itself, and the two it lets through
   from numpy (indexing an array out of range, reducing an empty array).
   A ValueError carries its message template and, when the template
   formats a number into the message, that number.                        *)
Variant exn (F : Type) : Type :=
| NotImplementedError of string
| ValueError of string & option F
| IndexError of string
| LinAlgError of string.

Arguments NotImplementedError {F} _.
Arguments ValueError {F} _ _.
Arguments IndexError {F} _.
Arguments LinAlgError {F} _.

Variant result (F A : Type) : Type :=
| Ok of A
| Raise of exn F.

Arguments Ok {F A} _.
Arguments Raise {F A} _.

Definition bind {F A B : Type} (r : result F A) (k : A -> result F B) :
  result F B :=
  match r with
  | Ok a => k a
  | Raise e => Raise e
  end.

Notation "'do' x <- r ; k" := (bind r (fun x => k))
  (at level 200, x name, r at level 100, k at level 200, right associativity).

Definition is_ok {F A : Type} (r : result F A) : bool :=
  if r is Ok _ then true else false.

(* ---------------------------------------------------------------------- *)
(*  Messages                                                              *)
(* ---------------------------------------------------------------------- *)

Definition msg_norm_H2 : string := "norm must be one of: H2"%string.
Definition msg_digital : string :=
  "balanced digital filters not supported"%string.
Definition msg_not_analog : string := "system (%s) must be analog"%string.
Definition msg_unstable : string :=
  "system (%s) has unstable eigenvalue: %s"%string.
Definition msg_empty_max : string :=
  "zero-size array to reduction operation maximum which has no identity"%string.
Definition msg_index : string := "index out of bounds"%string.
Definition msg_not_posdef : string := "matrix is not positive definite"%string.

(* does `sub` occur in `s` ? (used to say that a message names 'H2') *)
Fixpoint occurs (sub s : string) : bool :=
  String.prefix sub s ||
  (if s is String _ s' then occurs sub s' else false).

(* ---------------------------------------------------------------------- *)
(*  Python's built-in max and min, numpy's maximum over an array          *)
(* ---------------------------------------------------------------------- *)

Section Builtins.
Variable F : rcfType.

(* max(a, b): the first argument unless the second is strictly greater *)
Definition py_max (a b : F) : F := if a < b then b else a.
(* min(a, b): the first argument unless the second is strictly smaller *)
Definition py_min (a b : F) : F := if b < a then b else a.

(* np.max(v): raises on an empty array *)
Definition np_max (v : seq F) : result F F :=
  if v is x :: v' then Ok (foldl py_max x v')
  else Raise (ValueError msg_empty_max None).

(* np.sum over a one-dimensional array *)
Definition np_sum (v : seq F) : F := \sum_(x <- v) x.

(* numpy's quotient of two float64 values: a zero divisor does not raise,
   it yields nan (0/0), inf or -inf (with a RuntimeWarning).              *)
Variant xnum : Type := Finite of F | PosInf | NegInf | NaN.

Definition np_div (a b : F) : xnum :=
  if b == 0 then
    (if a == 0 then NaN else if 0 < a then PosInf else NegInf)
  else Finite (a / b).

(* q >= r for a quotient q and a finite r: every comparison with nan is
   false, inf is above and -inf is below every finite number.             *)
Definition xge (q : xnum) (r : F) : bool :=
  match q with
  | Finite v => r <= v
  | PosInf => true
  | NegInf | NaN => false
  end.

Definition is_finite (q : xnum) : bool :=
  if q is Finite _ then true else false.

End Builtins.

Arguments PosInf {F}.
Arguments NegInf {F}.
Arguments NaN {F}.

(* ---------------------------------------------------------------------- *)
(*  LinearSystem: the state-space form the adapter hands to the module    *)
(* ---------------------------------------------------------------------- *)

(* sys.ss = (A, B, C, D) and sys.analog.  LinearSystem(sys) applied to a
   LinearSystem is the identity, so the adapter call is not written.      *)
Record LinearSystem (F : rcfType) (n m p : nat) : Type := MkSys {
  ss_A : 'M[F]_n;
  ss_B : 'M[F]_(n, m);
  ss_C : 'M[F]_(p, n);
  ss_D : 'M[F]_(p, m);
  analog : bool
}.

(* ---------------------------------------------------------------------- *)
(*  Gramians, state norm, balancing and Hankel singular values            *)
(* ---------------------------------------------------------------------- *)

Section Gramians.
Variable F : rcfType.
Variables n m p : nat.

(* scipy.linalg collaborators *)
Variable solve_lyapunov : 'M[F]_n -> 'M[F]_n -> 'M[F]_n.
Variable solve_discrete_lyapunov : 'M[F]_n -> 'M[F]_n -> 'M[F]_n.
(* cholesky(M, lower=True); None when scipy raises LinAlgError *)
Variable cholesky : 'M[F]_n -> option 'M[F]_n.
(* svd(M) = (U, s, Vh) *)
Variable svd : 'M[F]_n -> 'M[F]_n * 'rV[F]_n * 'M[F]_n.
(* eig(M)[0]: the eigenvalues, complex numbers written (re, im) *)
Variable eig : 'M[F]_n -> seq (F * F).

Local Notation sys_t := (LinearSystem F n m p).

Definition _H2P (k : nat) (A : 'M[F]_n) (B : 'M[F]_(n, k)) (is_analog : bool) :
  'M[F]_n :=
  if is_analog then solve_lyapunov A (- (B *m B^T))
  else solve_discrete_lyapunov A (B *m B^T).

(* P[np.diag_indices(len(P))] *)
Definition diagonal (P : 'M[F]_n) : 'rV[F]_n := \row_i P i i.

Definition state_norm (sys : sys_t) (norm : string) : result F 'rV[F]_n :=
  if String.eqb norm "H2" then
    let P := _H2P (ss_A sys) (ss_B sys) (analog sys) in
    Ok (map_mx Num.sqrt (diagonal P))
  else Raise (NotImplementedError msg_norm_H2).

Definition control_gram (sys : sys_t) : 'M[F]_n :=
  _H2P (ss_A sys) (ss_B sys) (analog sys).

Definition observe_gram (sys : sys_t) : 'M[F]_n :=
  _H2P (ss_A sys)^T (ss_C sys)^T (analog sys).

(* s ** (-1. / 2), for the positive s it is applied to *)
Definition pow_neg_half (s : F) : F := (Num.sqrt s)^-1.

(* M * v for a matrix M and a one-dimensional v: numpy broadcasts v along
   the rows, so column j of M is scaled by v[j]                           *)
Definition scale_cols (M : 'M[F]_n) (v : 'rV[F]_n) : 'M[F]_n :=
  \matrix_(i, j) (M i j * v 0 j).

(* v[:, None] * M: row i of M is scaled by v[i] *)
Definition scale_rows (v : 'rV[F]_n) (M : 'M[F]_n) : 'M[F]_n :=
  \matrix_(i, j) (v 0 i * M i j).

Definition run_cholesky (M : 'M[F]_n) : result F 'M[F]_n :=
  if cholesky M is Some L then Ok L else Raise (LinAlgError msg_not_posdef).

Definition balanced_transformation (sys : sys_t) :
  result F ('M[F]_n * 'M[F]_n * 'rV[F]_n) :=
  if ~~ analog sys then Raise (NotImplementedError msg_digital)
  else
    let R := control_gram sys in
    let O := observe_gram sys in
    do LR <- run_cholesky R;
    do LO <- run_cholesky O;
    let: (U, Sv, V) := svd (LO^T *m LR) in
    let T := scale_cols (LR *m V^T) (map_mx pow_neg_half Sv) in
    let Tinv := scale_rows (map_mx pow_neg_half Sv) (U^T *m LO^T) in
    Ok (T, Tinv, Sv).

(* The outcome of balanced_transformation as the specification words it,
   with one matrix V in both places: an SVD LO^T LR = U diag(s) V^T of
   the Cholesky factors, and T = LR V^T diag(s^(-1/2)),
   Tinv = diag(s^(-1/2)) U^T LO^T with T Tinv = I.  It is compared with
   what the code computes in balanced_transformation_inverse.            *)
Definition balancing_as_specified (sys : sys_t) : Prop :=
  exists LR LO U s V T Tinv,
    [/\ cholesky (control_gram sys) = Some LR /\
        cholesky (observe_gram sys) = Some LO,
        LO^T *m LR = U *m diag_mx s *m V^T,
        balanced_transformation sys = Ok (T, Tinv, s),
        T = LR *m V^T *m diag_mx (map_mx pow_neg_half s) /\
        Tinv = diag_mx (map_mx pow_neg_half s) *m U^T *m LO^T &
        T *m Tinv = 1%:M].

(* abs of a complex number *)
Definition cabs (z : F * F) : F := Num.sqrt (z.1 ^+ 2 + z.2 ^+ 2).

(* np.sort(v)[::-1] *)
Definition sort_desc (v : seq F) : seq F := rev (sort <=%R v).

Definition hankel (sys : sys_t) : seq F :=
  let R := control_gram sys in
  let O := observe_gram sys in
  sort_desc [seq Num.sqrt (cabs z) | z <- eig (O *m R)].

(* the entries of a one-dimensional array, in index order *)
Definition entries (v : 'rV[F]_n) : seq F := [seq v 0 i | i <- enum 'I_n].

(* --- what the claims assume of the collaborators ---------------------- *)

Definition posdef (M : 'M[F]_n) : Prop :=
  M^T = M /\ forall v : 'rV[F]_n, v != 0 -> 0 < (v *m M *m v^T) 0 0.

(* scipy's contract for cholesky(M, lower=True) at a positive definite M *)
Definition cholesky_spec (M : 'M[F]_n) : Prop :=
  posdef M ->
  exists L, [/\ cholesky M = Some L, is_trig_mx L & L *m L^T = M].

(* scipy's contract for svd at M: M = U diag(s) Vh with orthogonal U, Vh
   and non-negative s                                                     *)
Definition svd_spec (M : 'M[F]_n) : Prop :=
  let: (U, s, Vh) := svd M in
  [/\ M = U *m diag_mx s *m Vh, U^T *m U = 1%:M, Vh *m Vh^T = 1%:M &
      forall i, 0 <= s 0 i].

(* eig at a matrix whose characteristic polynomial splits over F with
   roots w: the eigenvalues are those roots, each as often as it is a
   root, in some order (and have no imaginary part)                       *)
Definition eig_spec (M : 'M[F]_n) : Prop :=
  forall w : seq F,
    char_poly M = \prod_(x <- w) ('X - x%:P) ->
    perm_eq (eig M) [seq (x, 0) | x <- w].

End Gramians.

Arguments pow_neg_half {F} s.
Arguments cabs {F} z.

(* ---------------------------------------------------------------------- *)
(*  l1_norm: iterative refinement of a lower and an upper bound           *)
(* ---------------------------------------------------------------------- *)

Section L1Norm.
Variable F : rcfType.
Variable n : nat.

(* single-input single-output systems: B is a column, C a row, D 1 x 1 *)
Local Notation sys_t := (LinearSystem F n 1 1).

(* fminbound(..., full_output=True) = (xopt, fval, ierr, numfunc) *)
Record fmin_result : Type := FminResult {
  xopt : F;
  fval : F;
  ierr : nat;
  numfunc : nat
}.

(* scipy collaborators *)
Variable eig : 'M[F]_n -> seq (F * F).
Variable solve_lyapunov : 'M[F]_n -> 'M[F]_n -> 'M[F]_n.
(* fminbound f x1 x2 xtol *)
Variable fminbound : (F -> F) -> F -> F -> F -> fmin_result.
(* nengolib collaborators: cont2discrete(sys, dt), sys.impulse(length)
   and the property sys.dcgain                                            *)
Variable cont2discrete : sys_t -> F -> sys_t.
Variable impulse : sys_t -> nat -> seq F.
Variable dcgain : sys_t -> 'M[F]_1.

(* the state x[i, :] is a row; x0 arrives as the column B and is squeezed *)
Definition _state_impulse (A : 'M[F]_n) (x0 : 'cV[F]_n) (k delay : nat) :
  result F (seq 'rV[F]_n) :=
  if (delay < k)%N then
    Ok (nseq delay 0 ++ traject (fun v => (A *m v^T)^T) x0^T (k - delay))
  else Raise (IndexError msg_index).

(* the closure _normtail of l1_norm *)
Definition _normtail (sig : F) (A : 'M[F]_n) (x : 'rV[F]_n) (C : 'rV[F]_n) :
  F :=
  let W := solve_lyapunov (A^T + sig *: 1%:M) (- (C^T *m C)) in
  Num.sqrt ((x *m W *m x^T) 0 0 / 2 / sig).

(* v[:-1] and v[-1] *)
Definition drop_last (T : Type) (v : seq T) : seq T := take (size v).-1 v.

Definition last_row (v : seq 'rV[F]_n) : result F 'rV[F]_n :=
  if v is x :: v' then Ok (last x v') else Raise (IndexError msg_index).

(* a[mask] = w where w lists, interval by interval, the value computed
   from that interval's row: entry i is replaced where mask[i] holds.
   In l1_norm the mask (cross, one entry per interval) is one entry
   shorter than the array (abs_y, one entry per sample): the numpy the
   source was written for takes the missing entries of a boolean index
   as False, with a deprecation warning, so entries past the end of the
   mask are left as they are; numpy 1.13 and later raise IndexError.      *)
Fixpoint mask_assign (a : seq F) (mask : seq bool) (w : seq F) : seq F :=
  match a, mask, w with
  | x :: a', c :: mask', y :: w' =>
      (if c then y else x) :: mask_assign a' mask' w'
  | _, _, _ => a
  end.

(* the loop's working state *)
Record bounds : Type := Bounds {
  st_L : F;
  st_U : F;
  st_N : nat;
  st_T : F
}.

(* what one pass of the loop body computes from T and N *)
Record candidates : Type := Candidates {
  L_impulse : F;
  L_tail : F;
  U_impulse : F;
  U_tail : F
}.

Section Loop.
Variable sys : sys_t.
Variable rtol : F.
Variable max_length : nat.
(* alpha = np.max(eig(A)[0].real), once it is known to be negative *)
Variable alpha : F.

Let A := ss_A sys.
Let B := ss_B sys.
Let C := ss_C sys.

Definition G0 : F := (dcgain sys - ss_D sys) 0 0.
Definition xtol : F := - alpha * (10 ^+ 4)^-1.

(* the initial upper bound: fopt of the first fminbound call *)
Definition fopt : F :=
  fval (fminbound (fun sig => _normtail sig A B^T C) 0 (- alpha) xtol).

Definition init : bounds :=
  {| st_L := `|G0|; st_U := fopt; st_N := 2 ^ 4; st_T := - 1 / alpha |}.

(* Steps 1 and 2 of the loop body, up to the four sums the updates use.
   N is at least 16 on every pass (reachable_N), so dt = T / N is a proper
   quotient and no index below is out of range (candidates_ok).           *)
Definition candidates_at (T : F) (N : nat) : result F candidates :=
  let dt := T / N%:R in
  let dsys := cont2discrete (MkSys A B C 0 true) dt in
  let Phi := ss_A dsys in
  let y := impulse dsys N in
  let abs_y := [seq `|v| | v <- y] in
  let Li := np_sum abs_y in
  let Lt := `|G0 - np_sum y| in
  do x <- _state_impulse Phi B N 0;
  let abs_e := [seq `|(C *m v^T) 0 0| | v <- x] in
  let x' := drop_last x in
  let CTC := C^T *m C in
  let W := solve_lyapunov A^T (Phi^T *m CTC *m Phi - CTC) in
  let AWA := A^T *m (W *m A) in
  let thresh := [seq Num.sqrt (dt * (v *m AWA *m v^T) 0 0) | v <- x'] in
  let cross :=
    [seq (maxr e.1.1 e.1.2 <= e.2)
    | e <- zip (zip (drop_last abs_e) (behead abs_e)) thresh] in
  let refined := [seq Num.sqrt (dt * (v *m W *m v^T) 0 0) | v <- x'] in
  let abs_y' := mask_assign abs_y cross refined in
  do xlast <- last_row x';
  let Ut :=
    fval (fminbound (fun sig => _normtail sig A xlast C) 0 (- alpha) xtol) in
  let Ui := np_sum abs_y' in
  Ok {| L_impulse := Li; L_tail := Lt; U_impulse := Ui; U_tail := Ut |}.

(* the updates of L, U, N and T that close the loop body *)
Definition update (st : bounds) (c : candidates) : bounds :=
  let L' := py_max (st_L st) (L_impulse c + L_tail c) in
  let U' := py_max (py_min (st_U st) (U_impulse c + U_tail c)) L' in
  {| st_L := L';
     st_U := U';
     st_N := (st_N st * 2)%N;
     st_T := if U_impulse c - L_impulse c < U_tail c - L_tail c
             then st_T st * 2 else st_T st |}.

(* the loop body *)
Definition refine (st : bounds) : result F bounds :=
  do c <- candidates_at (st_T st) (st_N st);
  Ok (update st c).

(* .5 * (U - L) / L *)
Definition half_width (st : bounds) : xnum F :=
  np_div (2^-1 * (st_U st - st_L st)) (st_L st).

(* The guard `N <= max_length and .5 * (U - L) / L >= rtol`.  Python's
   `and` evaluates its right operand only when the left one holds:
   guard_division is the division the guard performs, as (dividend,
   divisor), and None when the guard performs none.                       *)
Definition guard_division (st : bounds) : option (F * F) :=
  if (st_N st <= max_length)%N
  then Some (2^-1 * (st_U st - st_L st), st_L st)
  else None.

Definition loop_guard (st : bounds) : bool :=
  if guard_division st is Some (a, b) then xge (np_div a b) rtol else false.

(* the while loop; None: the fuel ran out before the guard failed *)
Fixpoint l1_loop (fuel : nat) (st : bounds) : option (result F bounds) :=
  if loop_guard st then
    if fuel is f.+1 then
      match refine st with
      | Ok st' => l1_loop f st'
      | Raise e => Some (Raise e)
      end
    else None
  else Some (Ok st).

(* the return statement *)
Definition l1_return (st : bounds) : F * xnum F :=
  ((st_U st + st_L st) / 2 + `|ss_D sys 0 0|, half_width st).

(* the states at which the loop's guard is evaluated *)
Inductive reachable : bounds -> Prop :=
| ReachInit : reachable init
| ReachStep st st' : reachable st -> loop_guard st -> refine st = Ok st' ->
    reachable st'.

(* What the refinement presupposes of its numerical collaborators (the
   bounds of Rutland and Lane, eqs (33) and (39)): there is a number l1,
   the L1-norm of the strictly proper part, that every lower bound the
   algorithm computes stays below and every upper bound stays above.      *)
Definition sound_bounds (l1 : F) : Prop :=
  `|G0| <= l1 <= fopt /\
  forall st c, reachable st -> candidates_at (st_T st) (st_N st) = Ok c ->
    L_impulse c + L_tail c <= l1 <= U_impulse c + U_tail c.

(* a run of the loop from st: the body is executed k times and the loop
   ends with r                                                            *)
Inductive loop_runs : bounds -> nat -> result F bounds -> Prop :=
| RunExit st : ~~ loop_guard st -> loop_runs st 0 (Ok st)
| RunRaise st e : loop_guard st -> refine st = Raise e ->
    loop_runs st 1 (Raise e)
| RunStep st st' k r : loop_guard st -> refine st = Ok st' ->
    loop_runs st' k r -> loop_runs st k.+1 r.

End Loop.

(* alpha is np.max(eig(A)[0].real) and it is negative: sys is BIBO stable *)
Definition stable_with (sys : sys_t) (alpha : F) : Prop :=
  np_max [seq z.1 | z <- eig (ss_A sys)] = Ok alpha /\ alpha < 0.

Definition l1_norm (fuel : nat) (sys : sys_t) (rtol : F) (max_length : nat) :
  option (result F (F * xnum F)) :=
  if ~~ analog sys then Some (Raise (ValueError msg_not_analog None))
  else
    match np_max [seq z.1 | z <- eig (ss_A sys)] with
    | Raise e => Some (Raise e)
    | Ok alpha =>
        if 0 <= alpha then Some (Raise (ValueError msg_unstable (Some alpha)))
        else
          match l1_loop sys rtol max_length alpha fuel (init sys alpha) with
          | None => None
          | Some (Raise e) => Some (Raise e)
          | Some (Ok st) => Some (Ok (l1_return sys st))
          end
    end.

End L1Norm.

(* C6 as the specification words it: whether a pass doubles T is settled
   by how far the pass has reduced the upper and the lower tail bound,
   that is by the tail bounds before the pass (prev) and those of the pass
   (c).  The comparison of the two reductions,
   L_tail prev - L_tail c < U_tail prev - U_tail c, is one such rule.     *)
Definition horizon_decided_by_tails (F : rcfType) : Prop :=
  exists rule : F -> F -> F -> F -> bool,
    forall (st : bounds F) (prev c : candidates F),
      st_T (update st c) =
      if rule (U_tail prev) (L_tail prev) (U_tail c) (L_tail c)
      then st_T st * 2 else st_T st.

(* ====================================================================== *)
(*  Properties                                                            *)
(* ====================================================================== *)

(* ---------------------------------------------------------------------- *)
(*  state_norm                                                            *)
(* ---------------------------------------------------------------------- *)

Section StateNormTheory.
Variable F : rcfType.
Variables n m p : nat.
Variables solve solve_d : 'M[F]_n -> 'M[F]_n -> 'M[F]_n.
Variable sys : LinearSystem F n m p.

Lemma state_norm_H2 :
  state_norm solve solve_d sys "H2" =
  Ok (map_mx Num.sqrt (diagonal (control_gram solve solve_d sys))).
Proof. by []. Qed.

Lemma state_norm_other (norm : string) :
  norm <> "H2"%string ->
  state_norm solve solve_d sys norm = Raise (NotImplementedError msg_norm_H2).
Proof. by rewrite /state_norm; case: String.eqb_spec. Qed.

Lemma msg_norm_names_H2 : occurs "H2" msg_norm_H2.
Proof. by []. Qed.

End StateNormTheory.

(** C8: state_norm(sys, 'H2') returns, coordinate by coordinate, the square
    root of the diagonal of the controllability gramian of sys; for every
    other value of norm it raises NotImplementedError with a message that
    names H2, and it does so whatever the system and the Lyapunov solvers
    are (that branch consults neither). *)
Theorem state_norm_contract (F : rcfType) (n m p : nat)
    (solve solve_d : 'M[F]_n -> 'M[F]_n -> 'M[F]_n)
    (sys : LinearSystem F n m p) (norm : string) :
  (exists2 v : 'rV[F]_n,
     state_norm solve solve_d sys "H2" = Ok v &
     forall i, v 0 i = Num.sqrt (control_gram solve solve_d sys i i)) /\
  (norm <> "H2"%string ->
   state_norm solve solve_d sys norm = Raise (NotImplementedError msg_norm_H2)
   /\ occurs "H2" msg_norm_H2).
Proof.
split; last by move=> /state_norm_other ->.
exists (map_mx Num.sqrt (diagonal (control_gram solve solve_d sys))) => //.
by move=> i; rewrite !mxE.
Qed.

(* ---------------------------------------------------------------------- *)
(*  Linear algebra used by the balancing results                          *)
(* ---------------------------------------------------------------------- *)

Section MatrixFacts.
Variable F : rcfType.
Variable n : nat.
Implicit Types (M L P : 'M[F]_n) (v : 'rV[F]_n).

Lemma scale_colsE M v : scale_cols M v = M *m diag_mx v.
Proof. by rewrite mul_mx_diag. Qed.

Lemma scale_rowsE v M : scale_rows v M = diag_mx v *m M.
Proof. by rewrite mul_diag_mx. Qed.

(* a positive definite matrix is invertible: a vector of its kernel
   would make the quadratic form vanish                                   *)
Lemma posdef_unitmx M : posdef M -> M \in unitmx.
Proof.
case=> _ pos; rewrite -row_free_unit -kermx_eq0; apply/negPn/negP.
case/rowV0Pn=> v /sub_kermxP vM0 vn0.
by have := pos v vn0; rewrite vM0 mul0mx mxE ltxx.
Qed.

Lemma factor_unitmx L M : L *m L^T = M -> M \in unitmx -> L \in unitmx.
Proof. by move=> <-; rewrite unitmx_mul => /andP[]. Qed.

(* the characteristic polynomial is invariant under a change of basis *)
Lemma char_poly_conj P M :
  P \in unitmx -> char_poly (P *m M *m invmx P) = char_poly M.
Proof.
move=> Pu; rewrite /char_poly /char_poly_mx.
have PPi : map_mx polyC P *m map_mx polyC (invmx P) = 1%:M :> 'M[{poly F}]_n.
  by rewrite -map_mxM mulmxV // map_mx1.
have -> : 'X%:M - map_mx polyC (P *m M *m invmx P) =
          map_mx polyC P *m ('X%:M - map_mx polyC M) *m map_mx polyC (invmx P).
  rewrite mulmxBr mulmxBl -!map_mxM; congr (_ - _).
  by rewrite scalar_mxC -mulmxA PPi mulmx1.
rewrite !det_mulmx mulrAC -det_mulmx PPi det1 mul1r.
by [].
Qed.

Lemma char_poly_diag (d : 'rV[F]_n) :
  char_poly (diag_mx d) = \prod_(x <- [seq d 0 i | i <- enum 'I_n]) ('X - x%:P).
Proof.
rewrite char_poly_trig ?diag_mx_is_trig // big_map big_enum /=.
by apply: eq_bigr => i _; rewrite mxE eqxx mulr1n.
Qed.

(* a product of linear factors determines its roots with multiplicity *)
Lemma prod_XsubC_perm (u w : seq F) :
  \prod_(x <- u) ('X - x%:P) = \prod_(x <- w) ('X - x%:P) -> perm_eq u w.
Proof.
elim: u w => [|a u IHu] w.
  rewrite big_nil; case: w => // b w /(congr1 (fun q : {poly F} => root q b)).
  by rewrite root_prod_XsubC mem_head (negbTE (root1 _)).
rewrite big_cons => eq_uw.
have a_w : a \in w.
  by rewrite -root_prod_XsubC -eq_uw rootM root_XsubC eqxx.
have eq_w : \prod_(x <- w) ('X - x%:P) =
            ('X - a%:P) * \prod_(x <- rem a w) ('X - x%:P).
  by rewrite (perm_big _ (perm_to_rem a_w)) big_cons.
have /IHu perm_u : \prod_(x <- u) ('X - x%:P) = \prod_(x <- rem a w) ('X - x%:P).
  by apply: (mulfI (negbT (polyXsubC_eq0 a))); rewrite eq_uw eq_w.
by rewrite perm_sym (permPl (perm_to_rem a_w)) perm_cons perm_sym.
Qed.

End MatrixFacts.

Section GramFacts.
Variable F : rcfType.
Variable n : nat.

Lemma dot_self_gt0 (w : 'rV[F]_n) : w != 0 -> 0 < (w *m w^T) 0 0.
Proof.
move=> w_n0; rewrite mxE lt_def; apply/andP; split; last first.
  by apply: sumr_ge0 => j _; rewrite [w^T _ _]mxE -expr2 sqr_ge0.
apply: contraNneq w_n0 => /psumr_eq0P sum0.
apply/eqP/rowP=> j; rewrite [RHS]mxE; apply/eqP; rewrite -sqrf_eq0 expr2.
have := sum0 _ j isT; rewrite [w^T _ _]mxE => -> //.
by move=> i _; rewrite [w^T _ _]mxE -expr2 sqr_ge0.
Qed.

(* L L^T is positive definite when L is invertible *)
Lemma posdef_gram (L : 'M[F]_n) : L \in unitmx -> posdef (L *m L^T).
Proof.
move=> Lu; split=> [|v v_n0]; first by rewrite trmx_mul trmxK.
have -> : v *m (L *m L^T) *m v^T = (v *m L) *m (v *m L)^T.
  by rewrite trmx_mul !mulmxA.
apply: dot_self_gt0; apply: contraNneq v_n0 => w0.
by rewrite -(mulmxK Lu v) w0 mul0mx.
Qed.

End GramFacts.

(* ---------------------------------------------------------------------- *)
(*  balanced_transformation and hankel                                    *)
(* ---------------------------------------------------------------------- *)

Section BalancingTheory.
Variable F : rcfType.
Variables n m p : nat.
Variables solve solve_d : 'M[F]_n -> 'M[F]_n -> 'M[F]_n.
Variable cholesky : 'M[F]_n -> option 'M[F]_n.
Variable svd : 'M[F]_n -> 'M[F]_n * 'rV[F]_n * 'M[F]_n.
Variable eig : 'M[F]_n -> seq (F * F).
Variable sys : LinearSystem F n m p.

Let R := control_gram solve solve_d sys.
Let O := observe_gram solve solve_d sys.

Lemma pow_neg_half_sq (s : F) : 0 < s -> pow_neg_half s * s * pow_neg_half s = 1.
Proof.
move=> s_gt0; rewrite /pow_neg_half mulrAC -invfM -expr2 sqr_sqrtr ?ltW //.
by rewrite mulVf // gt_eqF.
Qed.

(* the singular values of an invertible matrix are positive *)
Lemma singular_values_pos (M U Vh : 'M[F]_n) (s : 'rV[F]_n) :
  M \in unitmx -> M = U *m diag_mx s *m Vh -> (forall i, 0 <= s 0 i) ->
  forall i, 0 < s 0 i.
Proof.
move=> Mu eqM s_ge0 i; rewrite lt_def s_ge0 andbT.
move: Mu; rewrite eqM !unitmx_mul => /andP[/andP[_]].
rewrite unitmxE det_diag unitfE => /prodf_neq0 nz _.
exact: nz.
Qed.

(* Tinv *m T = 1 for the two factors balanced_transformation builds *)
Lemma balanced_left_inverse (LR LO U Vh : 'M[F]_n) (s : 'rV[F]_n) :
  LO^T *m LR = U *m diag_mx s *m Vh ->
  U^T *m U = 1%:M -> Vh *m Vh^T = 1%:M -> (forall i, 0 < s 0 i) ->
  let D := diag_mx (map_mx pow_neg_half s) in
  (D *m U^T *m LO^T) *m (LR *m Vh^T *m D) = 1%:M.
Proof.
move=> eqM UtU VVt s_gt0 D.
have -> : D *m U^T *m LO^T *m (LR *m Vh^T *m D) =
          D *m (U^T *m (LO^T *m LR) *m Vh^T) *m D by rewrite !mulmxA.
have -> : U^T *m (LO^T *m LR) *m Vh^T =
          (U^T *m U) *m diag_mx s *m (Vh *m Vh^T) by rewrite eqM !mulmxA.
rewrite UtU VVt mul1mx mulmx1.
rewrite /D !mulmx_diag -diag_const_mx; congr diag_mx.
by apply/rowP=> i; rewrite !mxE pow_neg_half_sq.
Qed.

Local Notation balance := (balanced_transformation solve solve_d cholesky svd).
Local Notation hankel_sv := (hankel solve solve_d eig).

(* with positive definite gramians both factorisations succeed, the
   factors are invertible, and the call reduces to the SVD step           *)
Lemma balanced_transformation_run :
  analog sys -> posdef R -> posdef O ->
  cholesky_spec cholesky R -> cholesky_spec cholesky O ->
  exists LR LO,
    [/\ cholesky R = Some LR /\ cholesky O = Some LO,
        LR \in unitmx /\ LR *m LR^T = R,
        LO \in unitmx /\ LO *m LO^T = O &
        balance sys =
        let: (U, s, V) := svd (LO^T *m LR) in
        Ok (scale_cols (LR *m V^T) (map_mx pow_neg_half s),
            scale_rows (map_mx pow_neg_half s) (U^T *m LO^T), s)].
Proof.
move=> an pdR pdO /(_ pdR)[LR [cR _ eqR]] /(_ pdO)[LO [cO _ eqO]].
exists LR, LO; split=> //.
- by split=> //; apply: factor_unitmx eqR (posdef_unitmx pdR).
- by split=> //; apply: factor_unitmx eqO (posdef_unitmx pdO).
by rewrite /balanced_transformation an /= /run_cholesky cR cO.
Qed.

(* O R is similar to diag(s ^ 2): its characteristic polynomial splits
   with the squared singular values as roots                              *)
Lemma char_poly_gram_product (LR LO U Vh : 'M[F]_n) (s : 'rV[F]_n) :
  LO \in unitmx -> U^T *m U = 1%:M -> Vh *m Vh^T = 1%:M ->
  LO^T *m LR = U *m diag_mx s *m Vh ->
  char_poly ((LO *m LO^T) *m (LR *m LR^T)) =
  \prod_(x <- [seq s 0 i ^+ 2 | i <- enum 'I_n]) ('X - x%:P).
Proof.
move=> LOu UtU VVt eqM.
have Uu : U \in unitmx.
  by have := unitmx1 F n; rewrite -UtU unitmx_mul => /andP[].
pose P := LO *m U; pose s2 : 'rV[F]_n := \row_i (s 0 i * s 0 i).
have Pu : P \in unitmx by rewrite unitmx_mul LOu.
have eqMt : LR^T *m LO = Vh^T *m diag_mx s *m U^T.
  have := congr1 trmx eqM.
  by rewrite !trmx_mul trmxK tr_diag_mx mulmxA.
have XP : (LO *m LO^T) *m (LR *m LR^T) *m P = P *m diag_mx s2.
  have -> : LO *m LO^T *m (LR *m LR^T) *m P =
            LO *m (LO^T *m LR) *m (LR^T *m LO) *m U by rewrite /P !mulmxA.
  rewrite eqM eqMt.
  have -> : LO *m (U *m diag_mx s *m Vh) *m (Vh^T *m diag_mx s *m U^T) *m U =
            LO *m U *m diag_mx s *m (Vh *m Vh^T) *m diag_mx s *m (U^T *m U).
    by rewrite !mulmxA.
  by rewrite VVt UtU !mulmx1 -mulmxA mulmx_diag.
have -> : (LO *m LO^T) *m (LR *m LR^T) = P *m diag_mx s2 *m invmx P.
  by rewrite -XP mulmxK.
rewrite char_poly_conj // char_poly_diag; congr (\prod_(x <- _) _).
by apply: eq_map => i; rewrite mxE expr2.
Qed.

Lemma cabs_real (x : F) : cabs (x, 0) = `|x|.
Proof. by rewrite /cabs /= expr0n addr0 sqrtr_sqr. Qed.

Lemma sort_desc_sorted (v : seq F) : sorted >=%R (sort_desc v).
Proof. by rewrite /sort_desc rev_sorted; exact: sort_le_sorted. Qed.

Lemma perm_sort_desc (v : seq F) : perm_eq (sort_desc v) v.
Proof. by rewrite /sort_desc perm_rev perm_sort. Qed.

(** C2 (as amended): for an analog system with positive definite gramians,
    with cholesky and svd honouring scipy's contracts, the call factors
    R = LR LR^T and O = LO LO^T, decomposes LO^T LR = U diag(s) V where V
    is svd's third output as returned (the right factor, already
    transposed), and returns T = LR V^T diag(s^(-1/2)) and
    Tinv = diag(s^(-1/2)) U^T LO^T, which are inverse to each other. *)
Theorem balanced_transformation_inverse :
  analog sys -> posdef R -> posdef O ->
  cholesky_spec cholesky R -> cholesky_spec cholesky O ->
  (forall LR LO, cholesky R = Some LR -> cholesky O = Some LO ->
     svd_spec svd (LO^T *m LR)) ->
  exists LR LO U s V,
    [/\ cholesky R = Some LR /\ cholesky O = Some LO,
        svd (LO^T *m LR) = (U, s, V),
        LO^T *m LR = U *m diag_mx s *m V &
        exists T Tinv,
          [/\ balance sys = Ok (T, Tinv, s),
              T = LR *m V^T *m diag_mx (map_mx pow_neg_half s),
              Tinv = diag_mx (map_mx pow_neg_half s) *m U^T *m LO^T,
              T *m Tinv = 1%:M & Tinv *m T = 1%:M]].
Proof.
move=> an pdR pdO chR chO svdP.
have [LR [LO [[cR cO] [LRu eqR] [LOu eqO] run]]] :=
  balanced_transformation_run an pdR pdO chR chO.
have := svdP _ _ cR cO; rewrite /svd_spec; move: run.
case E: (svd _) => [[U s] V] run [eqM UtU VVt s_ge0].
have s_gt0 : forall i, 0 < s 0 i.
  apply: singular_values_pos eqM s_ge0.
  by rewrite unitmx_mul unitmx_tr LOu.
exists LR, LO, U, s, V; split=> //.
exists (LR *m V^T *m diag_mx (map_mx pow_neg_half s)),
       (diag_mx (map_mx pow_neg_half s) *m U^T *m LO^T).
have TiT := balanced_left_inverse eqM UtU VVt s_gt0.
split=> //; last exact: mulmx1C TiT.
by rewrite run scale_colsE scale_rowsE !mulmxA.
Qed.

(** C7: for an analog system with positive definite gramians (so that
    balanced_transformation succeeds), hankel(sys) is the descending sort
    of the square roots of the moduli of the eigenvalues of O R, and it is
    a permutation of the singular values balanced_transformation returns,
    which are svd's second output in the order svd gave them. *)
Theorem hankel_matches_balanced :
  analog sys -> posdef R -> posdef O ->
  cholesky_spec cholesky R -> cholesky_spec cholesky O ->
  (forall LR LO, cholesky R = Some LR -> cholesky O = Some LO ->
     svd_spec svd (LO^T *m LR)) ->
  eig_spec eig (O *m R) ->
  [/\ hankel_sv sys = sort_desc [seq Num.sqrt (cabs z) | z <- eig (O *m R)],
      sorted >=%R (hankel_sv sys) &
      exists LR LO T Tinv s,
        [/\ cholesky R = Some LR /\ cholesky O = Some LO,
            balance sys = Ok (T, Tinv, s),
            s = (svd (LO^T *m LR)).1.2 &
            perm_eq (hankel_sv sys) (entries s)]].
Proof.
move=> an pdR pdO chR chO svdP eigP.
split; [by [] | exact: sort_desc_sorted |].
have [LR [LO [[cR cO] [LRu eqR] [LOu eqO] run]]] :=
  balanced_transformation_run an pdR pdO chR chO.
have := svdP _ _ cR cO; rewrite /svd_spec; move: run.
case E: (svd _) => [[U s] V] run [eqM UtU VVt s_ge0].
exists LR, LO, (scale_cols (LR *m V^T) (map_mx pow_neg_half s)),
  (scale_rows (map_mx pow_neg_half s) (U^T *m LO^T)), s.
split=> //; first by rewrite E.
have /eigP roots : char_poly (O *m R) =
    \prod_(x <- [seq s 0 i ^+ 2 | i <- enum 'I_n]) ('X - x%:P).
  by rewrite -eqR -eqO; apply: char_poly_gram_product eqM.
rewrite /hankel (permPl (perm_sort_desc _)) -/O -/R.
rewrite (permPl (perm_map _ roots)) -2!map_comp.
rewrite (_ : map _ _ = entries s) //; apply: eq_map => i /=.
by rewrite cabs_real normrX sqrtr_sqr !ger0_norm.
Qed.

End BalancingTheory.

(* ---------------------------------------------------------------------- *)
(*  l1_norm                                                               *)
(* ---------------------------------------------------------------------- *)

Section BuiltinFacts.
Variable F : rcfType.
Implicit Types a b c : F.

Lemma py_maxE a b : py_max a b = maxr a b.
Proof. by []. Qed.

Lemma py_minE a b : py_min a b = minr a b.
Proof. by rewrite /py_min minC /minr; case: ltgtP. Qed.

Lemma py_max_ge_l a b : a <= py_max a b.
Proof. by rewrite py_maxE le_max lexx. Qed.

Lemma py_max_ge_r a b : b <= py_max a b.
Proof. by rewrite py_maxE le_max lexx orbT. Qed.

Lemma py_max_le a b c : a <= c -> b <= c -> py_max a b <= c.
Proof. by move=> ac bc; rewrite py_maxE ge_max ac. Qed.

Lemma py_min_le_l a b : py_min a b <= a.
Proof. by rewrite py_minE ge_min lexx. Qed.

Lemma py_min_ge a b c : c <= a -> c <= b -> c <= py_min a b.
Proof. by move=> ca cb; rewrite py_minE le_min ca. Qed.

(* clipping from below changes nothing when the floor is already met *)
Lemma py_max_clip a b : b <= a -> py_max a b = a.
Proof. by move=> ba; rewrite /py_max ltNge ba. Qed.

Lemma np_div0 a : is_finite (np_div a 0) = false.
Proof. by rewrite /np_div eqxx; case: ifP => // _; case: ifP. Qed.

Lemma np_div_finite a b : b != 0 -> np_div a b = Finite (a / b).
Proof. by rewrite /np_div => /negbTE ->. Qed.

End BuiltinFacts.

Section L1Theory.
Variable F : rcfType.
Variable n : nat.
Variable eig : 'M[F]_n -> seq (F * F).
Variable solve : 'M[F]_n -> 'M[F]_n -> 'M[F]_n.
Variable fminbound : (F -> F) -> F -> F -> F -> fmin_result F.
Variable cont2discrete : LinearSystem F n 1 1 -> F -> LinearSystem F n 1 1.
Variable impulse : LinearSystem F n 1 1 -> nat -> seq F.
Variable dcgain : LinearSystem F n 1 1 -> 'M[F]_1.

Variable sys : LinearSystem F n 1 1.
Variable rtol : F.
Variable max_length : nat.
Variable alpha : F.

Local Notation cands :=
  (candidates_at solve fminbound cont2discrete impulse dcgain sys alpha).
Local Notation body :=
  (refine solve fminbound cont2discrete impulse dcgain sys alpha).
Local Notation guard := (loop_guard rtol max_length).
Local Notation st0 := (init solve fminbound dcgain sys alpha).
Local Notation runs :=
  (loop_runs solve fminbound cont2discrete impulse dcgain sys rtol max_length
             alpha).
Local Notation loop :=
  (l1_loop solve fminbound cont2discrete impulse dcgain sys rtol max_length
           alpha).
Local Notation reach :=
  (reachable solve fminbound cont2discrete impulse dcgain sys rtol max_length
             alpha).
Local Notation bounds := (bounds F).

(* --- the loop body ---------------------------------------------------- *)

Lemma last_row_ok (v : seq 'rV[F]_n) :
  (0 < size v)%N -> exists x, last_row v = Ok x.
Proof. by case: v => // x v _; exists (last x v). Qed.

(* with at least two samples no index is out of range *)
Lemma candidates_ok (T : F) (N : nat) :
  (1 < N)%N -> exists c, cands T N = Ok c.
Proof.
move=> N_gt1; rewrite /candidates_at /_state_impulse (ltnW N_gt1) /= subn0.
set x' := drop_last _.
have /last_row_ok[xl ->] : (0 < size x')%N.
  by rewrite /x' /drop_last size_take size_traject ltn_predL (ltnW N_gt1) -subn1 subn_gt0.
by eexists.
Qed.

Lemma refine_update (st st' : bounds) :
  body st = Ok st' ->
  exists2 c, cands (st_T st) (st_N st) = Ok c & st' = update st c.
Proof.
rewrite /refine; case: (candidates_at _ _ _ _ _ _ _ _ _) => //= c [<-].
by exists c.
Qed.

Lemma refine_ok (st : bounds) :
  (1 < st_N st)%N ->
  exists2 c, cands (st_T st) (st_N st) = Ok c & body st = Ok (update st c).
Proof. by case/(candidates_ok (st_T st)) => c eqc; exists c; rewrite // /refine eqc. Qed.

Lemma mask_assign_ge0 (a : seq F) (mask : seq bool) (w : seq F) :
  all (>= 0) a -> all (>= 0) w -> all (>= 0) (mask_assign a mask w).
Proof.
elim: a mask w => [|x a IH] [|c mask] [|y w] //= /andP[x0 a0] /andP[y0 w0].
by rewrite IH // andbT; case: c.
Qed.

Lemma np_sum_ge0 (v : seq F) : all (>= 0) v -> 0 <= np_sum v.
Proof. by move/allP=> v0; rewrite /np_sum big_seq sumr_ge0. Qed.

(* what the four sums of a pass are made of *)
Lemma candidates_inv (T : F) (N : nat) c :
  cands T N = Ok c ->
  let dsys := cont2discrete
                (MkSys (ss_A sys) (ss_B sys) (ss_C sys) 0 true) (T / N%:R) in
  let y := impulse dsys N in
  [/\ L_impulse c = np_sum [seq `|v| | v <- y],
      L_tail c = `|G0 dcgain sys - np_sum y|,
      exists xs x,
        [/\ _state_impulse (ss_A dsys) (ss_B sys) N 0 = Ok xs, x \in xs &
            U_tail c =
            fval (fminbound
                    (fun sig => _normtail solve sig (ss_A sys) x (ss_C sys))
                    0 (- alpha) (xtol alpha))] &
      0 <= U_impulse c].
Proof.
rewrite /candidates_at; case: _state_impulse => //= xs.
case E: last_row => [xl|] //= [<-] /=; split=> //.
  exists xs, xl; split=> //; move: E; rewrite /last_row /drop_last.
  case E': (take _ _) => [|x v] // [<-]; apply: (@mem_take (size xs).-1).
  by rewrite E' mem_last.
apply/np_sum_ge0/mask_assign_ge0; apply/allP=> v /mapP[u _ ->] //.
exact: sqrtr_ge0.
Qed.

(* --- the updates ------------------------------------------------------ *)

Lemma update_L_mono (st : bounds) c : st_L st <= st_L (update st c).
Proof. exact: py_max_ge_l. Qed.

Lemma update_L_le_U (st : bounds) c : st_L (update st c) <= st_U (update st c).
Proof. exact: py_max_ge_r. Qed.

Lemma update_N (st : bounds) c : st_N (update st c) = (st_N st * 2)%N.
Proof. by []. Qed.

Lemma update_T (st : bounds) c :
  st_T (update st c) =
  if U_impulse c - L_impulse c < U_tail c - L_tail c
  then st_T st * 2 else st_T st.
Proof. by []. Qed.

(* U is lowered to the new candidate and then clipped at the new L *)
Lemma update_U (st : bounds) c :
  st_U (update st c) =
  py_max (py_min (st_U st) (U_impulse c + U_tail c)) (st_L (update st c)).
Proof. by []. Qed.

(* U does not rise as long as the new L has not overtaken it *)
Lemma update_U_mono (st : bounds) c :
  st_L (update st c) <= st_U st -> st_U (update st c) <= st_U st.
Proof. by move=> LU; rewrite update_U py_max_le // py_min_le_l. Qed.

(* U rises in a pass exactly when the new L has overtaken it *)
Lemma update_U_le (st : bounds) c :
  (st_U (update st c) <= st_U st) = (st_L (update st c) <= st_U st).
Proof.
apply/idP/idP; last exact: update_U_mono.
exact: le_trans (update_L_le_U st c).
Qed.

(* and then the clip sets it to the new L *)
Lemma update_U_clip (st : bounds) c :
  st_U st < st_L (update st c) -> st_U (update st c) = st_L (update st c).
Proof.
move=> lt_U_L; rewrite update_U /py_max ifT //.
exact: le_lt_trans (py_min_le_l _ _) lt_U_L.
Qed.

(* --- the guard -------------------------------------------------------- *)

Lemma guard_ceiling (st : bounds) : guard st -> (st_N st <= max_length)%N.
Proof. by rewrite /loop_guard /guard_division; case: leqP. Qed.

Lemma guardE (st : bounds) :
  guard st = (st_N st <= max_length)%N && xge (half_width st) rtol.
Proof. by rewrite /loop_guard /guard_division; case: leqP. Qed.

Lemma guard_exit (st : bounds) :
  ~~ guard st ->
  (max_length < st_N st)%N \/
  ((st_N st <= max_length)%N /\ ~~ xge (half_width st) rtol).
Proof. by rewrite guardE; case: leqP => _ /=; [right | left]. Qed.

(* --- runs of the loop ------------------------------------------------- *)

Lemma loop_runs_fuel (st : bounds) k r :
  runs st k r -> forall fuel, (k <= fuel)%N -> loop fuel st = Some r.
Proof.
elim=> {st k r} [st ng | st e g eqe | st st' k r g eqs _ IH] fuel.
- by case: fuel => [|f] _ /=; rewrite (negbTE ng).
- by case: fuel => // f _ /=; rewrite g eqe.
- by case: fuel => // f; rewrite ltnS /= g eqs; exact: IH.
Qed.

(* from a state with N > 1 the loop stops before N has doubled j times,
   if that many doublings take N past max_length                          *)
Lemma loop_terminates j (st : bounds) :
  (1 < st_N st)%N -> (max_length < st_N st * 2 ^ j)%N ->
  exists k st',
    [/\ (k <= j)%N, runs st k (Ok st'), ~~ guard st' &
        st_N st' = (st_N st * 2 ^ k)%N].
Proof.
elim: j st => [|j IH] st N_gt1 lt_ml.
  have ng : ~~ guard st.
    by rewrite guardE leqNgt; move: lt_ml; rewrite expn0 muln1 => ->.
  by exists 0%N, st; split=> //; [exact: RunExit | rewrite muln1].
case g: (guard st); last first.
  exists 0%N, st; rewrite g muln1; split=> //.
  by apply: RunExit; rewrite g.
have [c eqc eqs] := refine_ok N_gt1.
have [|| k [st' [le_kj run ng eqN]]] := IH (update st c).
- by rewrite update_N; apply: leq_trans N_gt1 _; rewrite leq_pmulr.
- by rewrite update_N -mulnA -expnS.
exists k.+1, st'; split=> //; first exact: RunStep g eqs run.
by rewrite eqN update_N -mulnA -expnS.
Qed.

(* the loop starts with 16 samples, and no state it reaches has fewer *)
Lemma init_N : st_N st0 = 16%N.
Proof. by []. Qed.

Lemma reachable_N (st : bounds) : reach st -> (16 <= st_N st)%N.
Proof.
elim=> {st} [|st st' _ IH _ /refine_update[c _ ->]] //.
by rewrite update_N; apply: leq_trans IH _; rewrite leq_pmulr.
Qed.

(* log2(max_length/16)+1 doublings take 16 past max_length *)
Lemma ceiling_bound :
  (max_length < 16 * 2 ^ (trunc_log 2 (max_length %/ 16)).+1)%N.
Proof. by rewrite mulnC -ltn_divLR // trunc_log_ltn. Qed.

Lemma loop_from_init :
  exists k st,
    [/\ (k <= (trunc_log 2 (max_length %/ 16)).+1)%N, runs st0 k (Ok st),
        ~~ guard st & st_N st = (16 * 2 ^ k)%N].
Proof. exact: (@loop_terminates _ st0 _ ceiling_bound). Qed.

(* a run that starts with a failing guard executes the body zero times *)
Lemma loop_runs_exit (st : bounds) k r :
  ~~ guard st -> runs st k r -> k = 0%N /\ r = Ok st.
Proof. by move=> ng run; case: run ng => // [st1 e|st1 st' j r1] ->. Qed.

(* the shape of a run is read off the guard and the body *)
Lemma loop_runs_inv (st : bounds) k r :
  runs st k r ->
  if guard st then
    match body st with
    | Raise e => k = 1%N /\ r = Raise e
    | Ok st' => exists2 j, k = j.+1 & runs st' j r
    end
  else k = 0%N /\ r = Ok st.
Proof.
case=> {st k r} [st /negbTE-> //|st e -> -> //|st st' k r -> -> run].
by exists k.
Qed.

(* the loop is deterministic: a run fixes the number of passes *)
Lemma loop_runs_fun (st : bounds) k r k' r' :
  runs st k r -> runs st k' r' -> k = k' /\ r = r'.
Proof.
move=> run; elim: run k' r' => {st k r} [st ng|st e g eqe|st st' k r g eqs _ IH]
  k' r' /loop_runs_inv.
- by rewrite (negbTE ng) => -[-> ->].
- by rewrite g eqe => -[-> ->].
- by rewrite g eqs => -[j -> /IH[-> ->]].
Qed.

(* a pass is executed only with N <= max_length: after k > 0 passes from
   st, the last one began with N = st_N st * 2^(k-1) <= max_length        *)
Lemma loop_runs_ceiling (st : bounds) k r :
  runs st k r -> (0 < k)%N -> (st_N st * 2 ^ k.-1 <= max_length)%N.
Proof.
elim=> {st k r} [//|st e g _ _|st st' k r g /refine_update[c _ ->] run IH _].
  by rewrite muln1; exact: guard_ceiling.
case: k run IH => [_ _|k _ /(_ isT)]; first by rewrite muln1; exact: guard_ceiling.
by rewrite update_N /= expnS mulnA.
Qed.

(* the loop returns, with a state, as soon as the fuel covers the bound *)
Lemma loop_total fuel :
  ((trunc_log 2 (max_length %/ 16)).+1 <= fuel)%N ->
  exists st, loop fuel st0 = Some (Ok st).
Proof.
have [k [st [le_k run _ _]]] := loop_from_init => le_f.
by exists st; apply: loop_runs_fuel run _ _; exact: leq_trans le_f.
Qed.

End L1Theory.

Section L1NormTheory.
Variable F : rcfType.
Variable n : nat.
Variable eig : 'M[F]_n -> seq (F * F).
Variable solve : 'M[F]_n -> 'M[F]_n -> 'M[F]_n.
Variable fminbound : (F -> F) -> F -> F -> F -> fmin_result F.
Variable cont2discrete : LinearSystem F n 1 1 -> F -> LinearSystem F n 1 1.
Variable impulse : LinearSystem F n 1 1 -> nat -> seq F.
Variable dcgain : LinearSystem F n 1 1 -> 'M[F]_1.

Variable sys : LinearSystem F n 1 1.
Variable rtol : F.
Variable max_length : nat.

Local Notation cands :=
  (candidates_at solve fminbound cont2discrete impulse dcgain sys).
Local Notation body :=
  (refine solve fminbound cont2discrete impulse dcgain sys).
Local Notation guard := (loop_guard rtol max_length).
Local Notation st0 := (init solve fminbound dcgain sys).
Local Notation runs :=
  (loop_runs solve fminbound cont2discrete impulse dcgain sys rtol max_length).
Local Notation loop :=
  (l1_loop solve fminbound cont2discrete impulse dcgain sys rtol max_length).
Local Notation reach :=
  (reachable solve fminbound cont2discrete impulse dcgain sys rtol max_length).
Local Notation l1 := (l1_norm eig solve fminbound cont2discrete impulse dcgain).
Local Notation log_bound := (trunc_log 2 (max_length %/ 16)).+1.

Local Notation stable := (stable_with eig sys).

(* once the two checks have passed, l1_norm is its loop and its return *)
Lemma l1_norm_loop alpha fuel :
  analog sys -> stable alpha ->
  l1 fuel sys rtol max_length =
  match loop alpha fuel (st0 alpha) with
  | None => None
  | Some (Raise e) => Some (Raise e)
  | Some (Ok st) => Some (Ok (l1_return sys st))
  end.
Proof. by rewrite /l1_norm => -> [-> a_lt0]; rewrite /= leNgt a_lt0. Qed.

Lemma l1_norm_total fuel :
  (log_bound <= fuel)%N -> exists r, l1 fuel sys rtol max_length = Some r.
Proof.
move=> le_f; rewrite /l1_norm; case: (analog sys) => /=; last by eexists.
case: np_max => [a|e]; last by eexists.
case: ifP => _; first by eexists.
have [st ->] := loop_total solve fminbound cont2discrete impulse dcgain
                  sys rtol a le_f.
by eexists.
Qed.

(** C5: the loop of l1_norm terminates.  N starts at 16, the guard lets
    the body run only while N <= max_length, and every pass doubles N; so
    the body runs k times for some k <= log2(max_length / 16) + 1 (integer
    quotient and logarithm) whatever rtol is; when k > 0 the last pass began
    with 16 * 2^(k-1) <= max_length, which is k <= log2(max_length / 16) + 1
    for the real logarithm, and so k = 0 when max_length < 16.  With that
    much fuel l1_loop returns its final state and l1_norm returns. *)
Theorem l1_loop_terminates :
  (forall alpha,
     [/\ st_N (st0 alpha) = 16%N,
         forall st, guard st -> (st_N st <= max_length)%N,
         forall st st', body alpha st = Ok st' -> st_N st' = (st_N st * 2)%N &
         exists k st,
           [/\ (k <= log_bound)%N /\
               ((0 < k)%N -> (16 * 2 ^ k.-1 <= max_length)%N),
               runs alpha (st0 alpha) k (Ok st),
               forall k' r, runs alpha (st0 alpha) k' r -> k' = k &
               forall fuel, (k <= fuel)%N ->
                 l1_loop solve fminbound cont2discrete impulse dcgain sys rtol
                   max_length alpha fuel (st0 alpha) = Some (Ok st)]]) /\
  (forall fuel, (log_bound <= fuel)%N ->
     exists r, l1 fuel sys rtol max_length = Some r).
Proof.
split=> [alpha|fuel]; last exact: l1_norm_total.
split=> //; first exact: guard_ceiling.
  by move=> st st' /refine_update[c _ ->].
have [k [st [le_k run _ _]]] :=
  loop_from_init solve fminbound cont2discrete impulse dcgain sys rtol
    max_length alpha.
exists k, st; split=> // [|k' r run'|fuel]; last exact: loop_runs_fuel run _.
  by split=> // /(loop_runs_ceiling run).
by have [] := loop_runs_fun run' run.
Qed.

(* --- the bounds ------------------------------------------------------- *)

Local Notation sound :=
  (sound_bounds solve fminbound cont2discrete impulse dcgain sys rtol
                max_length).

(* sound candidates keep the norm between L and U *)
Lemma reachable_bracket alpha (tn : F) (st : bounds F) :
  sound alpha tn -> reach alpha st -> st_L st <= tn <= st_U st.
Proof.
case=> br0 brc; elim=> {st} [|st st' rch /andP[Ll lU] _] //.
case/refine_update=> c /(brc _ _ rch)/andP[lc uc] ->.
rewrite /update /= py_max_le //=.
by rewrite (le_trans _ (py_max_ge_l _ _)) // py_min_ge.
Qed.


(** C6 (as amended): every pass of the loop body doubles N, and it
    doubles T exactly when U_impulse - L_impulse < U_tail - L_tail holds
    for the sums of that pass (the gap left by the tail bounds exceeds the
    gap left by the sampled sums); otherwise T is kept. *)
Theorem horizon_doubling (alpha : F) (st : bounds F) :
  reach alpha st ->
  exists c st',
    [/\ cands alpha (st_T st) (st_N st) = Ok c,
        refine solve fminbound cont2discrete impulse dcgain sys alpha st
        = Ok st',
        st_N st' = (st_N st * 2)%N,
        U_impulse c - L_impulse c < U_tail c - L_tail c ->
          st_T st' = st_T st * 2 &
        ~~ (U_impulse c - L_impulse c < U_tail c - L_tail c) ->
          st_T st' = st_T st].
Proof.
move/reachable_N=> N16.
have [|c eqc eqs] := @refine_ok _ _ solve fminbound cont2discrete impulse
                       dcgain sys alpha st; first exact: leq_trans N16.
exists c, (update st c); split=> //; rewrite update_T.
  by move=> ->.
by move=> /negbTE->.
Qed.

(* --- what l1_norm returns --------------------------------------------- *)

(** C4: on an analog BIBO-stable system l1_norm returns, from the bounds
    L and U the loop ends with, the pair ((U + L) / 2 + |D|,
    .5 * (U - L) / L); it does so whether the loop ends because N has
    passed max_length or because the half-width has dropped below rtol,
    and either way the result is a value, not an exception. *)
Theorem l1_norm_returns (alpha : F) :
  analog sys -> stable alpha ->
  exists k st,
    [/\ (k <= log_bound)%N,
        runs alpha (st0 alpha) k (Ok st),
        (max_length < st_N st)%N \/
        ((st_N st <= max_length)%N /\ ~~ xge (half_width st) rtol) &
        forall fuel, (k <= fuel)%N ->
          l1_norm eig solve fminbound cont2discrete impulse dcgain
            fuel sys rtol max_length =
          Some (Ok ((st_U st + st_L st) / 2 + `|ss_D sys 0 0|,
                    np_div (2^-1 * (st_U st - st_L st)) (st_L st)))].
Proof.
move=> an stb.
have [k [st [le_k run ng _]]] :=
  loop_from_init solve fminbound cont2discrete impulse dcgain sys rtol
    max_length alpha.
exists k, st; split=> // [|fuel le_kf]; first exact: guard_exit.
by rewrite (l1_norm_loop _ an stb) (loop_runs_fuel run le_kf).
Qed.

(** C10: with max_length < 16 the body of the loop is never executed, and
    on an analog BIBO-stable system l1_norm returns the pair built from
    the initial bounds L0 = |dcgain - D| and U0 = fopt, the minimum found
    by the first fminbound call. *)
Theorem l1_norm_short_ceiling (alpha : F) :
  (max_length < 16)%N -> analog sys -> stable alpha ->
  let L0 := `|(dcgain sys - ss_D sys) 0 0| in
  let U0 := fopt solve fminbound sys alpha in
  [/\ runs alpha (st0 alpha) 0 (Ok (st0 alpha)),
      forall k r, runs alpha (st0 alpha) k r -> k = 0%N &
      forall fuel,
        l1_norm eig solve fminbound cont2discrete impulse dcgain
          fuel sys rtol max_length =
        Some (Ok ((U0 + L0) / 2 + `|ss_D sys 0 0|,
                  np_div (2^-1 * (U0 - L0)) L0))].
Proof.
move=> lt16 an stb L0 U0.
have ng : ~~ guard (st0 alpha) by rewrite guardE /= leqNgt lt16.
have run : runs alpha (st0 alpha) 0 (Ok (st0 alpha)) by exact: RunExit.
split=> // [k r /(loop_runs_exit ng)[] //|fuel].
by rewrite (l1_norm_loop _ an stb) (loop_runs_fuel run (leq0n fuel)).
Qed.

(* --- the two checks ---------------------------------------------------- *)

(** C3: l1_norm raises ValueError on a system that is not analog; on an
    analog system whose largest eigenvalue real part alpha is >= 0 it
    raises the ValueError that carries alpha (alpha is computed once the
    analog check has passed; with alpha >= 0 the call fails with a
    ValueError in either case); on an analog system with alpha < 0 it
    raises neither and returns a pair. *)
Theorem l1_norm_checks (alpha : F) :
  [/\ ~~ analog sys ->
        forall fuel, l1 fuel sys rtol max_length =
                     Some (Raise (ValueError msg_not_analog None)),
      analog sys -> np_max [seq z.1 | z <- eig (ss_A sys)] = Ok alpha ->
        0 <= alpha ->
        forall fuel, l1 fuel sys rtol max_length =
                     Some (Raise (ValueError msg_unstable (Some alpha))),
      np_max [seq z.1 | z <- eig (ss_A sys)] = Ok alpha -> 0 <= alpha ->
        forall fuel, exists msg arg,
          l1 fuel sys rtol max_length = Some (Raise (ValueError msg arg)) &
      analog sys -> stable_with eig sys alpha ->
        forall fuel, (log_bound <= fuel)%N ->
        exists v, l1 fuel sys rtol max_length = Some (Ok v)].
Proof.
split=> [nan fuel|an eqa a_ge0 fuel|eqa a_ge0 fuel|an stb fuel le_f].
- by rewrite /l1_norm nan.
- by rewrite /l1_norm an eqa /= a_ge0.
- by rewrite /l1_norm eqa a_ge0; case: (analog sys) => /=; do 2!eexists.
have [st eq_loop] := loop_total solve fminbound cont2discrete impulse dcgain
                       sys rtol alpha le_f.
by rewrite (l1_norm_loop _ an stb) eq_loop; eexists.
Qed.

(* --- division by the lower bound --------------------------------------- *)

Lemma init_L_zero alpha : dcgain sys = ss_D sys -> st_L (st0 alpha) = 0.
Proof. by move=> eqD; rewrite /= /G0 eqD subrr mxE normr0. Qed.

(** C9 (as amended): l1_norm divides by L, unguarded, in the loop guard
    whenever N <= max_length and in the returned half-width.  On an analog
    BIBO-stable system whose dcgain equals D the initial L is zero: with
    max_length >= 16 the first evaluation of the guard divides by zero;
    with max_length < 16 the guard stops at N <= max_length and divides
    nothing, and the division by zero is the one of the return statement.
    Either quotient is inf, -inf or nan. *)
Theorem l1_norm_zero_divisor (alpha : F) :
  analog sys -> stable alpha -> dcgain sys = ss_D sys ->
  let U0 := fopt solve fminbound sys alpha in
  [/\ forall st : bounds F, (st_N st <= max_length)%N ->
        guard_division max_length st
        = Some (2^-1 * (st_U st - st_L st), st_L st),
      forall st : bounds F, (l1_return sys st).2
                 = np_div (2^-1 * (st_U st - st_L st)) (st_L st),
      (16 <= max_length)%N ->
        guard_division max_length (st0 alpha) = Some (2^-1 * (U0 - 0), 0),
      (max_length < 16)%N ->
        guard_division max_length (st0 alpha) = None /\
        forall fuel, exists est,
          l1 fuel sys rtol max_length
          = Some (Ok (est, np_div (2^-1 * (U0 - 0)) 0)) &
      forall a : F, is_finite (np_div a 0) = false].
Proof.
move=> an stb eqD U0; split=> [st le_N|st|le16|lt16|a].
- by rewrite /guard_division le_N.
- by [].
- by rewrite /guard_division init_L_zero //= le16.
- have ng : ~~ guard (st0 alpha) by rewrite guardE /= leqNgt lt16.
  split=> [|fuel]; first by rewrite /guard_division /= leqNgt lt16.
  have run : runs alpha (st0 alpha) 0 (Ok (st0 alpha)) by exact: RunExit.
  rewrite (l1_norm_loop _ an stb) (loop_runs_fuel run (leq0n fuel)).
  by rewrite /l1_return /half_width init_L_zero //; eexists.
- exact: np_div0.
Qed.

End L1NormTheory.

(* ---------------------------------------------------------------------- *)
(*  Further properties: duality, the discrete-time refusal, the states    *)
(* ---------------------------------------------------------------------- *)

Section FurtherProperties.
Variable F : rcfType.
Variables n m p : nat.
Variables solve solve_d : 'M[F]_n -> 'M[F]_n -> 'M[F]_n.

(* the dual system: (A, B, C, D) becomes (A^T, C^T, B^T, D^T) *)
Definition dual (sys : LinearSystem F n m p) : LinearSystem F n p m :=
  MkSys (ss_A sys)^T (ss_C sys)^T (ss_B sys)^T (ss_D sys)^T (analog sys).

(** The observability gramian of a system is the controllability gramian
    of its dual. *)
Theorem observe_gram_dual (sys : LinearSystem F n m p) :
  observe_gram solve solve_d sys = control_gram solve solve_d (dual sys).
Proof. by []. Qed.

(** balanced_transformation refuses a discrete-time system with
    NotImplementedError, before any gramian is computed. *)
Theorem balanced_transformation_discrete
    (cholesky : 'M[F]_n -> option 'M[F]_n)
    (svd : 'M[F]_n -> 'M[F]_n * 'rV[F]_n * 'M[F]_n)
    (sys : LinearSystem F n m p) :
  ~~ analog sys ->
  balanced_transformation solve solve_d cholesky svd sys
  = Raise (NotImplementedError msg_digital).
Proof. by rewrite /balanced_transformation => ->. Qed.

Lemma iter_row_step (A : 'M[F]_n) (x0 : 'cV[F]_n) i :
  iter i (fun v : 'rV[F]_n => (A *m v^T)^T) x0^T = (iter i (mulmx A) x0)^T.
Proof. by elim: i => //= i ->; rewrite trmxK. Qed.

(** _state_impulse(A, x0, k, delay) with delay < k returns k rows: zeros
    before row delay, then x0, A x0, A^2 x0, ...; with delay >= k the
    assignment to row delay is out of range. *)
Theorem state_impulse_rows (A : 'M[F]_n) (x0 : 'cV[F]_n) (k delay : nat) :
  if (delay < k)%N then
    exists xs,
      [/\ _state_impulse A x0 k delay = Ok xs, size xs = k &
          forall i, (i < k)%N ->
            nth 0 xs i = if (i < delay)%N then 0
                         else (iter (i - delay) (mulmx A) x0)^T]
  else _state_impulse A x0 k delay = Raise (IndexError msg_index).
Proof.
rewrite /_state_impulse; case: ltnP => // lt_dk.
eexists; split=> [//||i lt_ik].
  by rewrite size_cat size_nseq size_traject subnKC // ltnW.
rewrite nth_cat size_nseq; case: ltnP => [lt_id|le_di].
  by rewrite nth_nseq lt_id.
rewrite (set_nth_default x0^T) ?size_traject ?ltn_sub2r //.
by rewrite nth_traject ?ltn_sub2r // iter_row_step.
Qed.

End FurtherProperties.

(** Whatever the four sums of a pass are, the updates leave L no smaller,
    end with L <= U, and raise U only to the new L: U stays below
    max(U, new L), hence does not rise when the new L has not overtaken
    it. *)
Theorem update_bounds (F : rcfType) (st : bounds F) (c : candidates F) :
  let st' := update st c in
  [/\ st_L st <= st_L st',
      st_L st' <= st_U st',
      st_U st' <= maxr (st_U st) (st_L st') &
      st_L st' <= st_U st -> st_U st' <= st_U st].
Proof.
split; [exact: py_max_ge_l | exact: py_max_ge_r | | exact: update_U_mono].
rewrite update_U py_max_le // le_max ?lexx ?orbT //.
by rewrite py_min_le_l.
Qed.

(* ====================================================================== *)
(*  Further properties of the gramians, the balancing and hankel          *)
(* ====================================================================== *)

Section GramianEquations.
Variable F : rcfType.
Variables n m p : nat.
Variables solve solve_d : 'M[F]_n -> 'M[F]_n -> 'M[F]_n.

(* scipy's contract for solve_lyapunov(a, q) at (A, Q): the result X
   solves A X + X A^T = Q                                                 *)
Definition lyapunov_spec (A Q : 'M[F]_n) : Prop :=
  A *m solve A Q + solve A Q *m A^T = Q.

(* scipy's contract for solve_discrete_lyapunov(a, q) at (A, Q): the
   result X solves A X A^T - X + Q = 0                                    *)
Definition discrete_lyapunov_spec (A Q : 'M[F]_n) : Prop :=
  A *m solve_d A Q *m A^T - solve_d A Q + Q = 0.

(* the contract of the solver _H2P picks, at the right-hand side it
   builds from the input matrix B                                         *)
Definition H2P_solver_spec (k : nat) (A : 'M[F]_n) (B : 'M[F]_(n, k))
    (is_analog : bool) : Prop :=
  if is_analog then lyapunov_spec A (- (B *m B^T))
  else discrete_lyapunov_spec A (B *m B^T).

(* what _H2P returns solves the equation of the solver it picks *)
Lemma H2P_equation (k : nat) (A : 'M[F]_n) (B : 'M[F]_(n, k))
    (is_analog : bool) :
  H2P_solver_spec A B is_analog ->
  let P := _H2P solve solve_d A B is_analog in
  if is_analog then A *m P + P *m A^T = - (B *m B^T)
  else A *m P *m A^T - P = - (B *m B^T).
Proof.
rewrite /H2P_solver_spec /_H2P; case: is_analog => //=.
by rewrite /discrete_lyapunov_spec => /eqP; rewrite addr_eq0 => /eqP.
Qed.

Variable sys : LinearSystem F n m p.

Let A := ss_A sys.
Let B := ss_B sys.
Let C := ss_C sys.
Let P := control_gram solve solve_d sys.
Let Q := observe_gram solve solve_d sys.

(** The gramians solve the Lyapunov equations of the system: for an
    analog system A P + P A^T = -B B^T and A^T Q + Q A = -C^T C, for a
    discrete one A P A^T - P = -B B^T and A^T Q A - Q = -C^T C, where
    P = control_gram(sys) and Q = observe_gram(sys). *)
Theorem gramian_equations :
  H2P_solver_spec A B (analog sys) ->
  H2P_solver_spec A^T C^T (analog sys) ->
  if analog sys then
    A *m P + P *m A^T = - (B *m B^T) /\ A^T *m Q + Q *m A = - (C^T *m C)
  else
    A *m P *m A^T - P = - (B *m B^T) /\ A^T *m Q *m A - Q = - (C^T *m C).
Proof.
move=> /H2P_equation + /H2P_equation; rewrite -/(control_gram _ _ sys) -/P.
rewrite -/(observe_gram _ _ sys) -/Q !trmxK.
by case: (analog sys).
Qed.

End GramianEquations.

Section BalancingFurther.
Variable F : rcfType.
Variables n m p : nat.
Variables solve solve_d : 'M[F]_n -> 'M[F]_n -> 'M[F]_n.
Variable cholesky : 'M[F]_n -> option 'M[F]_n.
Variable svd : 'M[F]_n -> 'M[F]_n * 'rV[F]_n * 'M[F]_n.
Variable sys : LinearSystem F n m p.

Let A := ss_A sys.
Let B := ss_B sys.
Let C := ss_C sys.
Let R := control_gram solve solve_d sys.
Let O := observe_gram solve solve_d sys.

Local Notation balance := (balanced_transformation solve solve_d cholesky svd).

Lemma pow_neg_half_sq2 (s : F) :
  0 < s -> pow_neg_half s * (s * s) * pow_neg_half s = s.
Proof.
move=> s_gt0.
have -> : pow_neg_half s * (s * s) * pow_neg_half s =
          pow_neg_half s * s * pow_neg_half s * s by ring.
by rewrite pow_neg_half_sq // mul1r.
Qed.

Lemma diag_balance (s : 'rV[F]_n) :
  (forall i, 0 < s 0 i) ->
  let D := diag_mx (map_mx pow_neg_half s) in
  D *m diag_mx s *m diag_mx s *m D = diag_mx s.
Proof.
move=> s_gt0 D; rewrite /D !mulmx_diag; congr diag_mx.
by apply/rowP=> i; rewrite !mxE -[RHS](pow_neg_half_sq2 (s_gt0 i)) !mulrA.
Qed.

(* the two congruences by the factors balanced_transformation builds *)
Lemma balanced_congruences (LR LO U Vh : 'M[F]_n) (s : 'rV[F]_n) :
  LO^T *m LR = U *m diag_mx s *m Vh ->
  U^T *m U = 1%:M -> Vh *m Vh^T = 1%:M -> (forall i, 0 < s 0 i) ->
  let D := diag_mx (map_mx pow_neg_half s) in
  let T := LR *m Vh^T *m D in
  let Tinv := D *m U^T *m LO^T in
  Tinv *m (LR *m LR^T) *m Tinv^T = diag_mx s /\
  T^T *m (LO *m LO^T) *m T = diag_mx s.
Proof.
move=> eqM UtU VVt s_gt0 D T Tinv.
have eqMt : LR^T *m LO = Vh^T *m diag_mx s *m U^T.
  have := congr1 trmx eqM.
  by rewrite !trmx_mul trmxK tr_diag_mx mulmxA.
have Dt : D^T = D by rewrite tr_diag_mx.
split.
  have -> : Tinv *m (LR *m LR^T) *m Tinv^T =
            D *m U^T *m (LO^T *m LR) *m (LR^T *m LO) *m U *m D.
    by rewrite /Tinv !trmx_mul !trmxK Dt !mulmxA.
  rewrite eqM eqMt.
  have -> : D *m U^T *m (U *m diag_mx s *m Vh) *m (Vh^T *m diag_mx s *m U^T)
              *m U *m D =
            D *m (U^T *m U) *m diag_mx s *m (Vh *m Vh^T) *m diag_mx s
              *m (U^T *m U) *m D by rewrite !mulmxA.
  by rewrite UtU VVt !mulmx1 diag_balance.
have -> : T^T *m (LO *m LO^T) *m T =
          D *m Vh *m (LR^T *m LO) *m (LO^T *m LR) *m Vh^T *m D.
  by rewrite /T !trmx_mul !trmxK Dt !mulmxA.
rewrite eqM eqMt.
have -> : D *m Vh *m (Vh^T *m diag_mx s *m U^T) *m (U *m diag_mx s *m Vh)
            *m Vh^T *m D =
          D *m (Vh *m Vh^T) *m diag_mx s *m (U^T *m U) *m diag_mx s
            *m (Vh *m Vh^T) *m D by rewrite !mulmxA.
by rewrite UtU VVt !mulmx1 diag_balance.
Qed.

(* what a successful call returns, in terms of the two factorisations *)
Lemma balanced_transformation_factors :
  analog sys -> posdef R -> posdef O ->
  cholesky_spec cholesky R -> cholesky_spec cholesky O ->
  (forall LR LO, cholesky R = Some LR -> cholesky O = Some LO ->
     svd_spec svd (LO^T *m LR)) ->
  exists (LR LO U : 'M[F]_n) (s : 'rV[F]_n) (Vh : 'M[F]_n),
    [/\ LR *m LR^T = R /\ LO *m LO^T = O,
        LO^T *m LR = U *m diag_mx s *m Vh,
        U^T *m U = 1%:M /\ Vh *m Vh^T = 1%:M,
        forall i, 0 < s 0 i &
        balance sys =
        Ok (LR *m Vh^T *m diag_mx (map_mx pow_neg_half s),
            diag_mx (map_mx pow_neg_half s) *m U^T *m LO^T, s)].
Proof.
move=> an pdR pdO chR chO svdP.
have [LR [LO [[cR cO] [LRu eqR] [LOu eqO] run]]] :=
  balanced_transformation_run svd an pdR pdO chR chO.
have := svdP _ _ cR cO; rewrite /svd_spec; move: run.
case E: (svd _) => [[U s] V] run [eqM UtU VVt s_ge0].
exists LR, LO, U, s, V; split=> //.
  apply: singular_values_pos eqM s_ge0.
  by rewrite unitmx_mul unitmx_tr LOu.
by rewrite run scale_colsE scale_rowsE !mulmxA.
Qed.

(** The transformation balances the gramians: for an analog system with
    positive definite gramians R and O, the returned T, Tinv and S satisfy
    Tinv R Tinv^T = diag(S) and T^T O T = diag(S), and every entry of S is
    positive. *)
Theorem balanced_gramians :
  analog sys -> posdef R -> posdef O ->
  cholesky_spec cholesky R -> cholesky_spec cholesky O ->
  (forall LR LO, cholesky R = Some LR -> cholesky O = Some LO ->
     svd_spec svd (LO^T *m LR)) ->
  exists T Tinv s,
    [/\ balance sys = Ok (T, Tinv, s),
        Tinv *m R *m Tinv^T = diag_mx s,
        T^T *m O *m T = diag_mx s &
        forall i, 0 < s 0 i].
Proof.
move=> an pdR pdO chR chO svdP.
have [LR [LO [U [s [Vh [[eqR eqO] eqM [UtU VVt] s_gt0 run]]]]]] :=
  balanced_transformation_factors an pdR pdO chR chO svdP.
have [cR cO] := balanced_congruences eqM UtU VVt s_gt0.
by eexists _, _, s; split; first exact: run; rewrite -?eqR -?eqO.
Qed.

(** The transformed realisation (Tinv A T, Tinv B, C T) is balanced: with
    the solver solving the two Lyapunov equations of the system, diag(S)
    solves both Lyapunov equations of the transformed realisation, that
    is, diag(S) is its controllability and its observability gramian. *)
Theorem balanced_realization :
  analog sys -> posdef R -> posdef O ->
  cholesky_spec cholesky R -> cholesky_spec cholesky O ->
  (forall LR LO, cholesky R = Some LR -> cholesky O = Some LO ->
     svd_spec svd (LO^T *m LR)) ->
  H2P_solver_spec solve solve_d A B (analog sys) ->
  H2P_solver_spec solve solve_d A^T C^T (analog sys) ->
  exists T Tinv s,
    balance sys = Ok (T, Tinv, s) /\
    let Ab := Tinv *m A *m T in
    let Bb := Tinv *m B in
    let Cb := C *m T in
    Ab *m diag_mx s + diag_mx s *m Ab^T = - (Bb *m Bb^T) /\
    Ab^T *m diag_mx s + diag_mx s *m Ab = - (Cb^T *m Cb).
Proof.
move=> an pdR pdO chR chO svdP /H2P_equation + /H2P_equation.
rewrite -/(control_gram _ _ sys) -/R -/(observe_gram _ _ sys) -/O an !trmxK.
move=> /= lyP lyQ.
have [LR [LO [U [s [Vh [[eqR eqO] eqM [UtU VVt] s_gt0 run]]]]]] :=
  balanced_transformation_factors an pdR pdO chR chO svdP.
have [cR cO] := balanced_congruences eqM UtU VVt s_gt0.
have TiT := balanced_left_inverse eqM UtU VVt s_gt0.
have TTi := mulmx1C TiT.
move: cR cO TiT TTi run; rewrite eqR eqO.
set T := LR *m _ *m _; set Tinv := _ *m U^T *m _ => cR cO TiT TTi run.
exists T, Tinv, s; split=> //= .
have TtTit : Tinv^T *m T^T = 1%:M by rewrite -trmx_mul TTi trmx1.
have TitTt : T^T *m Tinv^T = 1%:M by rewrite -trmx_mul TiT trmx1.
split.
  rewrite -cR.
  have -> : Tinv *m A *m T *m (Tinv *m R *m Tinv^T) =
            Tinv *m A *m (T *m Tinv) *m R *m Tinv^T by rewrite !mulmxA.
  have -> : Tinv *m R *m Tinv^T *m (Tinv *m A *m T)^T =
            Tinv *m R *m (Tinv^T *m T^T) *m A^T *m Tinv^T.
    by rewrite !trmx_mul !mulmxA.
  rewrite TTi TtTit !mulmx1.
  have -> : Tinv *m A *m R *m Tinv^T + Tinv *m R *m A^T *m Tinv^T =
            Tinv *m (A *m R + R *m A^T) *m Tinv^T.
    by rewrite mulmxDr mulmxDl !mulmxA.
  by rewrite lyP mulmxN mulNmx trmx_mul !mulmxA.
rewrite -cO.
have -> : (Tinv *m A *m T)^T *m (T^T *m O *m T) =
          T^T *m A^T *m (Tinv^T *m T^T) *m O *m T.
  by rewrite !trmx_mul !mulmxA.
have -> : T^T *m O *m T *m (Tinv *m A *m T) =
          T^T *m O *m (T *m Tinv) *m A *m T by rewrite !mulmxA.
rewrite TTi TtTit !mulmx1.
have -> : T^T *m A^T *m O *m T + T^T *m O *m A *m T =
          T^T *m (A^T *m O + O *m A) *m T.
  by rewrite mulmxDr mulmxDl !mulmxA.
by rewrite lyQ mulmxN mulNmx trmx_mul !mulmxA.
Qed.

End BalancingFurther.

Section BalancingOutcome.
Variable F : rcfType.
Variables n m p : nat.
Variables solve solve_d : 'M[F]_n -> 'M[F]_n -> 'M[F]_n.
Variable cholesky : 'M[F]_n -> option 'M[F]_n.
Variable svd : 'M[F]_n -> 'M[F]_n * 'rV[F]_n * 'M[F]_n.
Variable sys : LinearSystem F n m p.

Let R := control_gram solve solve_d sys.
Let O := observe_gram solve solve_d sys.

Local Notation balance := (balanced_transformation solve solve_d cholesky svd).

(* scipy's cholesky raises LinAlgError on a symmetric matrix that is not
   positive definite: when it returns a factor of a symmetric M, M is
   positive definite                                                      *)
Definition cholesky_refuses (M : 'M[F]_n) : Prop :=
  M^T = M -> forall L, cholesky M = Some L -> posdef M.

(** On an analog system with symmetric gramians balanced_transformation
    returns exactly when both gramians are positive definite; when one of
    them is not (the system is not controllable or not observable), it
    raises the LinAlgError of the Cholesky factorisation. *)
Theorem balanced_transformation_outcome :
  analog sys -> R^T = R -> O^T = O ->
  cholesky_spec cholesky R -> cholesky_spec cholesky O ->
  cholesky_refuses R -> cholesky_refuses O ->
  match balance sys with
  | Ok _ => posdef R /\ posdef O
  | Raise e => e = LinAlgError msg_not_posdef /\ ~ (posdef R /\ posdef O)
  end.
Proof.
move=> an symR symO chR chO rfR rfO.
rewrite /balanced_transformation an /= /run_cholesky -/R -/O.
case cR: (cholesky R) => [LR|] /=; last first.
  by split=> // -[/chR[L []]]; rewrite cR.
case cO: (cholesky O) => [LO|] /=; last first.
  by split=> // -[_ /chO[L []]]; rewrite cO.
by case: (svd _) => [[U s] V]; split; [exact: rfR cR | exact: rfO cO].
Qed.

End BalancingOutcome.

Section HankelFurther.
Variable F : rcfType.
Variables n m p : nat.
Variables solve solve_d : 'M[F]_n -> 'M[F]_n -> 'M[F]_n.
Variable cholesky : 'M[F]_n -> option 'M[F]_n.
Variable svd : 'M[F]_n -> 'M[F]_n * 'rV[F]_n * 'M[F]_n.
Variable sys : LinearSystem F n m p.

Let R := control_gram solve solve_d sys.
Let O := observe_gram solve solve_d sys.

Local Notation balance := (balanced_transformation solve solve_d cholesky svd).

Lemma sort_desc_perm (u v : seq F) :
  perm_eq u v -> sort_desc u = sort_desc v.
Proof.
move=> uv; rewrite /sort_desc; congr rev.
by apply/perm_sortP => //; [exact: le_total | exact: le_trans | exact: le_anti].
Qed.

(** hankel(sys) does not depend on the order in which eig lists the
    eigenvalues of O R (the reason the source gives for sorting): two eig
    routines whose outputs are permutations of each other give the same
    result.  The result has one entry per eigenvalue, has no negative
    entry and is in descending order, on analog and on discrete systems
    alike. *)
Theorem hankel_canonical (eig eig' : 'M[F]_n -> seq (F * F)) :
  [/\ perm_eq (eig (O *m R)) (eig' (O *m R)) ->
        hankel solve solve_d eig sys = hankel solve solve_d eig' sys,
      size (hankel solve solve_d eig sys) = size (eig (O *m R)),
      all (>= 0) (hankel solve solve_d eig sys) &
      sorted >=%R (hankel solve solve_d eig sys)].
Proof.
split=> [pe| | |]; rewrite /hankel -/R -/O.
- exact/sort_desc_perm/perm_map.
- by rewrite /sort_desc size_rev size_sort size_map.
- rewrite (perm_all _ (perm_sort_desc _)); apply/allP=> x /mapP[z _ ->].
  exact: sqrtr_ge0.
- exact: sort_desc_sorted.
Qed.

(* under the hypotheses of the balancing, hankel lists the singular
   values svd returned, in some order *)
Lemma hankel_perm_svd (eig : 'M[F]_n -> seq (F * F)) :
  analog sys -> posdef R -> posdef O ->
  cholesky_spec cholesky R -> cholesky_spec cholesky O ->
  (forall LR LO, cholesky R = Some LR -> cholesky O = Some LO ->
     svd_spec svd (LO^T *m LR)) ->
  eig_spec eig (O *m R) ->
  exists T Tinv s,
    balance sys = Ok (T, Tinv, s) /\
    perm_eq (hankel solve solve_d eig sys) (entries s).
Proof.
move=> an pdR pdO chR chO svdP eigP.
have [LR [LO [[cR cO] [LRu eqR] [LOu eqO] run]]] :=
  balanced_transformation_run svd an pdR pdO chR chO.
have := svdP _ _ cR cO; rewrite /svd_spec; move: run.
case E: (svd _) => [[U s] V] run [eqM UtU VVt s_ge0].
eexists _, _, s; split; first exact: run.
have /eigP roots : char_poly (O *m R) =
    \prod_(x <- [seq s 0 i ^+ 2 | i <- enum 'I_n]) ('X - x%:P).
  by rewrite /O /R -eqR -eqO; apply: char_poly_gram_product eqM.
rewrite /hankel (permPl (perm_sort_desc _)) -/O -/R.
rewrite (permPl (perm_map _ roots)) -2!map_comp.
rewrite (_ : map _ _ = entries s) //; apply: eq_map => i /=.
by rewrite cabs_real normrX sqrtr_sqr !ger0_norm.
Qed.

(** When svd lists the singular values in descending order, as scipy
    does, hankel(sys) is the S of balanced_transformation(sys) entry by
    entry, not just up to order. *)
Theorem hankel_is_balanced_S (eig : 'M[F]_n -> seq (F * F)) :
  analog sys -> posdef R -> posdef O ->
  cholesky_spec cholesky R -> cholesky_spec cholesky O ->
  (forall LR LO, cholesky R = Some LR -> cholesky O = Some LO ->
     svd_spec svd (LO^T *m LR) /\
     sorted >=%R (entries (svd (LO^T *m LR)).1.2)) ->
  eig_spec eig (O *m R) ->
  exists T Tinv s,
    balance sys = Ok (T, Tinv, s) /\
    hankel solve solve_d eig sys = entries s.
Proof.
move=> an pdR pdO chR chO svdP eigP.
have [T [Tinv [s [run perm_s]]]] :=
  hankel_perm_svd an pdR pdO chR chO (fun LR LO cR cO => (svdP LR LO cR cO).1)
                  eigP.
exists T, Tinv, s; split=> //.
apply: (@sorted_eq _ >=%R) perm_s; first exact: ge_trans.
- exact: ge_anti.
- exact: sort_desc_sorted.
have [LR [LO [[cR cO] _ _]]] :=
  balanced_transformation_run svd an pdR pdO chR chO.
rewrite run; case: (svd _) (svdP _ _ cR cO).2 => [[U s'] V] /= srt [_ _ ->].
exact: srt.
Qed.

End HankelFurther.

(* ====================================================================== *)
(*  Further properties of l1_norm                                         *)
(* ====================================================================== *)

Section L1Further.
Variable F : rcfType.
Variable n : nat.
Variable eig : 'M[F]_n -> seq (F * F).
Variable solve : 'M[F]_n -> 'M[F]_n -> 'M[F]_n.
Variable fminbound : (F -> F) -> F -> F -> F -> fmin_result F.
Variable cont2discrete : LinearSystem F n 1 1 -> F -> LinearSystem F n 1 1.
Variable impulse : LinearSystem F n 1 1 -> nat -> seq F.
Variable dcgain : LinearSystem F n 1 1 -> 'M[F]_1.
Variable sys : LinearSystem F n 1 1.

Local Notation cands :=
  (candidates_at solve fminbound cont2discrete impulse dcgain sys).
Local Notation body :=
  (refine solve fminbound cont2discrete impulse dcgain sys).
Local Notation st0 := (init solve fminbound dcgain sys).
Local Notation runs :=
  (loop_runs solve fminbound cont2discrete impulse dcgain sys).
Local Notation reach :=
  (reachable solve fminbound cont2discrete impulse dcgain sys).
Local Notation sound :=
  (sound_bounds solve fminbound cont2discrete impulse dcgain sys).
Local Notation l1 := (l1_norm eig solve fminbound cont2discrete impulse dcgain).
Local Notation stable := (stable_with eig sys).
Local Notation log_bound ml := (trunc_log 2 (ml %/ 16)).+1.

(* --- along a run ------------------------------------------------------ *)

(* k passes multiply N by 2^k and T by 2^j for some j <= k, and leave L
   no smaller                                                             *)
Lemma loop_runs_shape rtol ml alpha (st : bounds F) k r :
  runs rtol ml alpha st k r -> forall st', r = Ok st' ->
  [/\ st_N st' = (st_N st * 2 ^ k)%N,
      exists2 j, (j <= k)%N & st_T st' = st_T st * 2 ^+ j &
      st_L st <= st_L st'].
Proof.
elim=> {st k r} [st _|//|st st1 k r g /refine_update[c _ ->] _ IH] st'.
  by case=> <-; split; rewrite ?muln1 //; exists 0%N; rewrite ?expr0 ?mulr1.
move=> /IH[-> [j le_jk ->] le_L]; split.
- by rewrite update_N expnS mulnA.
- rewrite update_T; case: ifP => _; last by exists j; rewrite // leqW.
  by exists j.+1; rewrite // exprS mulrA.
- exact: le_trans (update_L_mono _ _) le_L.
Qed.

(* a run that executes the body ends with L <= U *)
Lemma loop_runs_ordered rtol ml alpha (st : bounds F) k r :
  runs rtol ml alpha st k r -> forall st', r = Ok st' ->
  (0 < k)%N \/ st_L st <= st_U st -> st_L st' <= st_U st'.
Proof.
elim=> {st k r} [st _|//|st st1 k r g /refine_update[c _ ->] _ IH] st'.
  by case=> <- [].
by move=> /IH h _; apply: h; right; exact: update_L_le_U.
Qed.

(* the states of a run from a reachable state are reachable *)
Lemma loop_runs_reach rtol ml alpha (st : bounds F) k r :
  runs rtol ml alpha st k r -> forall st', r = Ok st' ->
  reach rtol ml alpha st -> reach rtol ml alpha st'.
Proof.
elim=> {st k r} [st _|//|st st1 k r g eqs _ IH] st'; first by case=> <-.
by move=> /IH h rch; apply: h; exact: ReachStep rch g eqs.
Qed.

(* with sound bounds U does not rise along a run from a reachable state *)
Lemma loop_runs_U_mono rtol ml alpha tn (st : bounds F) k r :
  sound rtol ml alpha tn ->
  runs rtol ml alpha st k r -> forall st', r = Ok st' ->
  reach rtol ml alpha st -> st_U st' <= st_U st.
Proof.
move=> snd.
elim=> {st k r} [st _|//|st st1 k r g eqs _ IH] st'; first by case=> <-.
move=> /IH h rch; have rch1 := ReachStep rch g eqs.
apply: le_trans (h rch1) _.
have /andP[_ le_tn_U] := reachable_bracket snd rch.
have /andP[le_L1_tn _] := reachable_bracket snd rch1.
case/refine_update: eqs le_L1_tn => c _ -> le_L1_tn.
by apply: update_U_mono; exact: le_trans le_tn_U.
Qed.

(* L never falls below its initial value |dcgain - D| *)
Lemma reachable_L_floor rtol ml alpha (st : bounds F) :
  reach rtol ml alpha st -> `|G0 dcgain sys| <= st_L st.
Proof.
elim=> {st} [|st st' _ IH _ /refine_update[c _ ->]] //.
exact: le_trans IH (update_L_mono _ _).
Qed.

(* --- the schedule of N and T ------------------------------------------ *)

(** When the loop of l1_norm ends after k passes, N = 16 * 2^k and
    T = (-1 / alpha) * 2^j for some j <= k; with alpha < 0 the horizon T is
    positive and the time step T / N lies between the initial step
    (-1 / alpha) / 16 divided by 2^k and the initial step itself: the
    sampling never gets coarser. *)
Theorem sampling_schedule (rtol : F) (ml : nat) (alpha : F) (k : nat)
    (st : bounds F) :
  alpha < 0 -> runs rtol ml alpha (st0 alpha) k (Ok st) ->
  let dt0 := (- 1 / alpha) / 16 in
  [/\ st_N st = (16 * 2 ^ k)%N,
      exists2 j, (j <= k)%N & st_T st = (- 1 / alpha) * 2 ^+ j,
      0 < st_T st &
      dt0 / 2 ^+ k <= st_T st / (st_N st)%:R <= dt0].
Proof.
move=> a_lt0 /loop_runs_shape/(_ _ erefl)[eqN [j le_jk eqT] _] dt0.
have T0_gt0 : 0 < - 1 / alpha :> F.
  by rewrite mulNr mul1r -invrN invr_gt0 oppr_gt0.
have p2 i : 0 < 2 ^+ i :> F by rewrite exprn_gt0 // ltr0n.
split=> //; first by exists j.
  by rewrite eqT mulr_gt0.
rewrite eqN eqT /= -[(2 ^ 4)%N]/16%N natrM natrX /dt0.
have -> : - 1 / alpha * 2 ^+ j / (16 * 2 ^+ k) =
          (- 1 / alpha / 16) * (2 ^+ j / 2 ^+ k) :> F.
  by rewrite invfM -!mulrA; congr (_ * (_ * _)); rewrite mulrCA mulrA.
have d_gt0 : 0 < - 1 / alpha / 16 :> F by rewrite divr_gt0 // ltr0n.
have le_jk2 : 2 ^+ j <= 2 ^+ k :> F by rewrite ler_weXn2l // ler1n.
rewrite ler_pM2l // ler_piMr ?(ltW d_gt0) ?ler_pdivrMr ?mul1r //.
by rewrite andbT ler_pdivlMr // mulVf ?gt_eqF // exprn_ege1 // ler1n.
Qed.


(* --- the returned pair ------------------------------------------------ *)

Lemma midpoint_range (L U d : F) :
  L <= U -> L + d <= (U + L) / 2 + d <= U + d.
Proof. by move=> LU; lra. Qed.

Lemma midpoint_radius (L U d t : F) :
  L <= t <= U -> `|(U + L) / 2 + d - (t + d)| <= (U - L) / 2.
Proof. by move=> /andP[Lt tU]; rewrite ler_norml; lra. Qed.

(* the quotient of the return statement, when the divisor is positive *)
Lemma half_width_pos (st : bounds F) :
  0 < st_L st ->
  half_width st = Finite (2^-1 * (st_U st - st_L st) / st_L st).
Proof. by move=> L_gt0; rewrite /half_width np_div_finite // gt_eqF. Qed.

(* a finite quotient means that the divisor was not zero *)
Lemma half_width_finite (st : bounds F) h :
  half_width st = Finite h ->
  st_L st != 0 /\ h = 2^-1 * (st_U st - st_L st) / st_L st.
Proof.
rewrite /half_width /np_div; case: eqP => [_|_ [<-] //].
by case: ifP => // _; case: ifP.
Qed.

(* the loop from the initial state: its run, and what l1_norm returns *)
Lemma l1_norm_run rtol ml alpha :
  analog sys -> stable alpha ->
  exists k st,
    [/\ (k <= log_bound ml)%N,
        runs rtol ml alpha (st0 alpha) k (Ok st),
        ~~ loop_guard rtol ml st &
        forall fuel, (k <= fuel)%N ->
          l1 fuel sys rtol ml = Some (Ok (l1_return sys st))].
Proof.
move=> an stb.
have [k [st [le_k run ng _]]] :=
  loop_from_init solve fminbound cont2discrete impulse dcgain sys rtol ml alpha.
exists k, st; split=> // fuel le_kf.
by rewrite (l1_norm_loop _ _ _ _ _ _ _ _ an stb) (loop_runs_fuel run le_kf).
Qed.

(** When the loop is entered at all, the pair l1_norm returns is built
    from bounds with L <= U: the estimate lies between L + |D| and
    U + |D|, it is at least |dcgain| (the L1-norm of a system is never
    below the modulus of its DC gain), and the relative half-width, when
    it is a number, is not negative. *)
Theorem l1_norm_estimate_range (rtol : F) (ml : nat) (alpha : F) :
  analog sys -> stable alpha -> loop_guard rtol ml (st0 alpha) ->
  exists k st,
    [/\ (0 < k)%N /\ runs rtol ml alpha (st0 alpha) k (Ok st),
        forall fuel, (k <= fuel)%N ->
          l1 fuel sys rtol ml = Some (Ok (l1_return sys st)),
        st_L st + `|ss_D sys 0 0| <= (l1_return sys st).1
          <= st_U st + `|ss_D sys 0 0|,
        `|dcgain sys 0 0| <= (l1_return sys st).1 &
        forall h, (l1_return sys st).2 = Finite h -> 0 <= h].
Proof.
move=> an stb g0.
have [k [st [_ run _ ret]]] := l1_norm_run rtol ml an stb.
have k_gt0 : (0 < k)%N.
  have := loop_runs_inv run; rewrite g0.
  have [|c _ ->] := refine_ok solve fminbound cont2discrete impulse dcgain sys
                      alpha (st := st0 alpha); first by [].
  by case=> j ->.
have LU : st_L st <= st_U st by apply: loop_runs_ordered run _ erefl _; left.
have [_ _ L0L] := loop_runs_shape run erefl.
have L_ge0 : 0 <= st_L st by exact: le_trans (normr_ge0 _) L0L.
exists k, st; split=> //.
- exact: midpoint_range.
- rewrite /l1_return /=.
  have -> : dcgain sys 0 0 = G0 dcgain sys + ss_D sys 0 0.
    by rewrite /G0 !mxE subrK.
  apply: le_trans (ler_normD _ _) _; rewrite lerD2r.
  apply: le_trans L0L _ => /=.
  by have /andP[] := midpoint_range 0 LU; rewrite !addr0.
- move=> h /half_width_finite[L_n0 ->].
  rewrite divr_ge0 // mulr_ge0 ?invr_ge0 ?ler0n // subr_ge0.
  exact: LU.
Qed.

(** When dcgain differs from D the lower bound is positive from the start
    and stays so: no quotient by L, in the guard or in the return
    statement, has a zero divisor, and the relative half-width l1_norm
    returns is the number .5 * (U - L) / L; it is below rtol unless the
    loop was stopped by the ceiling on N. *)
Theorem l1_norm_proper_division (rtol : F) (ml : nat) (alpha : F) :
  analog sys -> stable alpha -> dcgain sys 0 0 != ss_D sys 0 0 ->
  (forall st, reach rtol ml alpha st -> 0 < st_L st) /\
  exists k st,
    let h := 2^-1 * (st_U st - st_L st) / st_L st in
    [/\ runs rtol ml alpha (st0 alpha) k (Ok st),
        forall fuel, (k <= fuel)%N ->
          l1_norm eig solve fminbound cont2discrete impulse dcgain
            fuel sys rtol ml
          = Some (Ok ((st_U st + st_L st) / 2 + `|ss_D sys 0 0|, Finite h)) &
        (st_N st <= ml)%N -> h < rtol].
Proof.
move=> an stb G_n0.
have pos st : reach rtol ml alpha st -> 0 < st_L st.
  move/reachable_L_floor; apply: lt_le_trans.
  by rewrite normr_gt0 /G0 !mxE subr_eq0.
split=> //.
have [k [st [_ run ng ret]]] := l1_norm_run rtol ml an stb.
have L_gt0 : 0 < st_L st.
  by apply: pos; apply: loop_runs_reach run _ erefl _; exact: ReachInit.
exists k, st; split=> // [fuel le_kf|le_N].
  by rewrite ret // /l1_return half_width_pos.
case: (guard_exit ng) => [|[_]]; first by rewrite ltnNge le_N.
by rewrite half_width_pos //= -ltNge.
Qed.

Lemma max_eq0 (a b : F) :
  0 <= a -> 0 <= b -> (maxr a b == 0) = (a == 0) && (b == 0).
Proof.
move=> a0 b0; rewrite /maxr; case: ltP => [lt_ab|le_ba].
  by rewrite [a == 0]eq_le a0 andbT; case: eqP => [<-|_]; rewrite ?andbF // ltW.
by rewrite [b == 0]eq_le b0 andbT; case: eqP => [<-|_].
Qed.

(* a sum of moduli vanishes only when every term does *)
Lemma sum_abs_eq0 (y : seq F) :
  (np_sum [seq `|v| | v <- y] == 0) = all (fun v => v == 0) y.
Proof.
rewrite /np_sum; elim: y => [|v y IH]; first by rewrite big_nil eqxx.
rewrite /= big_cons paddr_eq0 ?normr_ge0 ?normr_eq0 ?IH //.
by rewrite big_map sumr_ge0.
Qed.

Lemma sum_all0 (y : seq F) : all (fun v => v == 0) y -> np_sum y = 0.
Proof.
move/allP=> y0; rewrite /np_sum big_seq big1 // => v /y0.
by move/eqP.
Qed.

(** A pass leaves the lower bound at zero only in one case: L was zero
    before the pass, dcgain equals D, and every sample of the simulated
    impulse response is zero.  In every other case L is positive after the
    pass. *)
Theorem lower_bound_zero (rtol : F) (ml : nat) (alpha : F)
    (st st' : bounds F) :
  reach rtol ml alpha st -> body alpha st = Ok st' ->
  let dsys := cont2discrete (MkSys (ss_A sys) (ss_B sys) (ss_C sys) 0 true)
                            (st_T st / (st_N st)%:R) in
  0 <= st_L st' /\
  (st_L st' == 0) =
  [&& st_L st == 0, dcgain sys 0 0 == ss_D sys 0 0 &
      all (fun v => v == 0) (impulse dsys (st_N st))].
Proof.
move=> rch eqs dsys.
have L_ge0 : 0 <= st_L st.
  exact: le_trans (normr_ge0 _) (reachable_L_floor rch).
have [c eqc ->] := refine_update eqs.
have [eqLi eqLt _ _] := candidates_inv eqc.
have Li_ge0 : 0 <= L_impulse c.
  by rewrite eqLi /np_sum big_map sumr_ge0.
have Lt_ge0 : 0 <= L_tail c by rewrite eqLt.
split; first exact: le_trans L_ge0 (update_L_mono _ _).
rewrite /update /= py_maxE max_eq0 ?addr_ge0 // paddr_eq0 //; congr (_ && _).
rewrite eqLi sum_abs_eq0 -/dsys andbC.
have [y0|] /= := boolP (all _ _); last by rewrite !andbF.
by rewrite !andbT eqLt -/dsys (sum_all0 y0) subr0 normr_eq0 /G0 !mxE subr_eq0.
Qed.

(** With sound bounds the pair l1_norm returns certifies the norm: the
    number tn between all the bounds lies in [L, U] for the final L and U,
    so the estimate (U + L) / 2 + |D| is within (U - L) / 2 of tn + |D|;
    and when the returned relative half-width is a number h, that radius
    is h * L, which is at most h * tn. *)
Theorem l1_norm_certificate (rtol : F) (ml : nat) (alpha tn : F) :
  analog sys -> stable alpha -> sound rtol ml alpha tn ->
  exists k st,
    [/\ runs rtol ml alpha (st0 alpha) k (Ok st),
        forall fuel, (k <= fuel)%N ->
          l1 fuel sys rtol ml = Some (Ok (l1_return sys st)),
        st_L st <= tn <= st_U st,
        `|(l1_return sys st).1 - (tn + `|ss_D sys 0 0|)|
          <= (st_U st - st_L st) / 2 &
        forall h, (l1_return sys st).2 = Finite h ->
          `|(l1_return sys st).1 - (tn + `|ss_D sys 0 0|)| <= h * st_L st
          /\ h * st_L st <= h * tn].
Proof.
move=> an stb snd.
have [k [st [_ run _ ret]]] := l1_norm_run rtol ml an stb.
have rch : reach rtol ml alpha st.
  by apply: loop_runs_reach run _ erefl _; exact: ReachInit.
have /andP[le_L le_U] := reachable_bracket snd rch.
have L_ge0 : 0 <= st_L st.
  exact: le_trans (normr_ge0 _) (reachable_L_floor rch).
have rad : `|(l1_return sys st).1 - (tn + `|ss_D sys 0 0|)|
           <= (st_U st - st_L st) / 2.
  by apply: midpoint_radius; rewrite le_L.
exists k, st; split=> // [|h /half_width_finite[L_n0 eqh]].
  by rewrite le_L.
have h_ge0 : 0 <= h.
  rewrite eqh divr_ge0 // mulr_ge0 ?invr_ge0 ?ler0n // subr_ge0.
  exact: le_trans le_U.
split; last exact: ler_wpM2l.
suff -> : h * st_L st = (st_U st - st_L st) / 2 by [].
by rewrite eqh -mulrA mulVf // mulr1 mulrC.
Qed.

(* --- a larger budget -------------------------------------------------- *)

(* a guard that holds under the smaller ceiling and the larger tolerance
   holds under the larger ceiling and the smaller tolerance               *)
Lemma guard_weaken rtol1 ml1 rtol2 ml2 (st : bounds F) :
  (ml1 <= ml2)%N -> rtol2 <= rtol1 ->
  loop_guard rtol1 ml1 st -> loop_guard rtol2 ml2 st.
Proof.
move=> le_ml le_rt; rewrite !guardE => /andP[le_N ge_rt].
rewrite (leq_trans le_N le_ml) /=.
by case: (half_width st) ge_rt => //= v; exact: le_trans.
Qed.

(* the run under the smaller budget is the beginning of the run under the
   larger one                                                             *)
Lemma loop_runs_extend rtol1 ml1 rtol2 ml2 alpha (st : bounds F) k r :
  (ml1 <= ml2)%N -> rtol2 <= rtol1 ->
  runs rtol1 ml1 alpha st k r -> forall st1, r = Ok st1 ->
  (1 < st_N st)%N -> reach rtol2 ml2 alpha st ->
  exists j st2,
    [/\ reach rtol2 ml2 alpha st1, runs rtol2 ml2 alpha st1 j (Ok st2) &
        runs rtol2 ml2 alpha st (k + j) (Ok st2)].
Proof.
move=> le_ml le_rt; elim=> {st k r} [st _|//|st st' k r g eqs _ IH] st1.
  case=> <- N_gt1 rch.
  have [|j [st2 [_ run _ _]]] :=
    @loop_terminates _ _ solve fminbound cont2discrete impulse dcgain sys
      rtol2 ml2 alpha ml2 st N_gt1.
    apply: leq_trans (ltn_expl ml2 (ltnSn 1)) _.
    by rewrite leq_pmull // ltnW.
  by exists j, st2.
move=> /IH h N_gt1 rch.
have g2 := guard_weaken le_ml le_rt g.
have [||j [st2 [rch1 run1 run2]]] := h.
- case/refine_update: eqs => c _ ->; rewrite update_N.
  by apply: leq_trans N_gt1 _; rewrite leq_pmulr.
- exact: ReachStep rch g2 eqs.
by exists j, st2; split=> //; rewrite addSn; exact: RunStep g2 eqs run2.
Qed.

(** A larger budget never loosens the result.  With max_length raised and
    rtol lowered (or either kept), the loop repeats the passes of the
    smaller budget and possibly goes on: it ends with an L no smaller
    and, with sound bounds, a U no larger, and when the relative
    half-width returned under the smaller budget is a number, the one
    returned under the larger budget is a number that is not greater. *)
Theorem l1_norm_refines (rtol1 : F) (ml1 : nat) (rtol2 : F) (ml2 : nat)
    (alpha tn : F) :
  analog sys -> stable alpha -> (ml1 <= ml2)%N -> rtol2 <= rtol1 ->
  sound rtol2 ml2 alpha tn ->
  exists k1 st1 k2 st2,
    [/\ runs rtol1 ml1 alpha (st0 alpha) k1 (Ok st1) /\
        runs rtol2 ml2 alpha (st0 alpha) k2 (Ok st2),
        (forall fuel, (k1 <= fuel)%N ->
           l1 fuel sys rtol1 ml1 = Some (Ok (l1_return sys st1))) /\
        (forall fuel, (k2 <= fuel)%N ->
           l1 fuel sys rtol2 ml2 = Some (Ok (l1_return sys st2))),
        (k1 <= k2)%N,
        st_L st1 <= st_L st2 /\ st_U st2 <= st_U st1 &
        forall h1, (l1_return sys st1).2 = Finite h1 ->
          exists2 h2, (l1_return sys st2).2 = Finite h2 & h2 <= h1].
Proof.
move=> an stb le_ml le_rt snd.
have [k1 [st1 [_ run1 _ ret1]]] := l1_norm_run rtol1 ml1 an stb.
have [|j [st2 [rch1 run12 run2]]] :=
  loop_runs_extend le_ml le_rt run1 erefl _ (ReachInit _ _ _ _ _ _ _ _ _).
  by [].
have rch2 := loop_runs_reach run12 erefl rch1.
have [_ _ le_L] := loop_runs_shape run12 erefl.
have le_U := loop_runs_U_mono snd run12 erefl rch1.
exists k1, st1, (k1 + j)%N, st2; split=> //; first split=> // fuel le_f.
- by rewrite (l1_norm_loop _ _ _ _ _ _ _ _ an stb) (loop_runs_fuel run2 le_f).
- exact: leq_addr.
move=> h1 /half_width_finite[L1_n0 ->].
have L1_gt0 : 0 < st_L st1.
  rewrite lt_def L1_n0 /=.
  exact: le_trans (normr_ge0 _) (reachable_L_floor rch1).
have L2_gt0 : 0 < st_L st2 by exact: lt_le_trans le_L.
have /andP[le_L2 le_U2] := reachable_bracket snd rch2.
exists (2^-1 * (st_U st2 - st_L st2) / st_L st2).
  by rewrite /l1_return /= half_width_pos.
apply: ler_pM.
- by rewrite mulr_ge0 ?invr_ge0 ?ler0n // subr_ge0 (le_trans le_L2).
- by rewrite invr_ge0 ltW.
- by rewrite ler_pM2l ?invr_gt0 ?ltr0n // lerB.
- by rewrite lef_pV2.
Qed.

(* --- a tolerance that cannot be met ----------------------------------- *)

(** With rtol <= 0 the tolerance is never met: when dcgain differs from D
    and the initial bounds are ordered (|dcgain - D| <= fopt), the loop
    runs until N has passed max_length, so it ends with the first
    N = 16 * 2^k above max_length. *)
Theorem l1_norm_zero_tolerance (rtol : F) (ml : nat) (alpha : F) :
  analog sys -> stable alpha -> rtol <= 0 ->
  dcgain sys 0 0 != ss_D sys 0 0 ->
  `|G0 dcgain sys| <= fopt solve fminbound sys alpha ->
  exists k st,
    [/\ runs rtol ml alpha (st0 alpha) k (Ok st),
        forall fuel, (k <= fuel)%N ->
          l1 fuel sys rtol ml = Some (Ok (l1_return sys st)),
        st_N st = (16 * 2 ^ k)%N,
        (ml < st_N st)%N &
        (0 < k)%N -> (16 * 2 ^ k.-1 <= ml)%N].
Proof.
move=> an stb rt_le0 G_n0 LU0.
have [k [st [_ run ng ret]]] := l1_norm_run rtol ml an stb.
have [eqN _ _] := loop_runs_shape run erefl.
exists k, st; split=> //; last exact: loop_runs_ceiling run.
have rch : reach rtol ml alpha st.
  by apply: loop_runs_reach run _ erefl _; exact: ReachInit.
have L_gt0 : 0 < st_L st.
  apply: lt_le_trans (reachable_L_floor rch).
  by rewrite normr_gt0 /G0 !mxE subr_eq0.
have LU : st_L st <= st_U st by apply: loop_runs_ordered run _ erefl _; right.
have h_ge0 : 0 <= 2^-1 * (st_U st - st_L st) / st_L st.
  apply: divr_ge0; last exact: ltW.
  by rewrite mulr_ge0 ?invr_ge0 ?ler0n // subr_ge0.
case: (guard_exit ng) => // -[_]; rewrite half_width_pos //=.
by rewrite (le_trans rt_le0 h_ge0).
Qed.

End L1Further.

(* --- the feedthrough -------------------------------------------------- *)

Section Feedthrough.
Variable F : rcfType.
Variable n : nat.
Variable eig : 'M[F]_n -> seq (F * F).
Variable solve : 'M[F]_n -> 'M[F]_n -> 'M[F]_n.
Variable fminbound : (F -> F) -> F -> F -> F -> fmin_result F.
Variable cont2discrete : LinearSystem F n 1 1 -> F -> LinearSystem F n 1 1.
Variable impulse : LinearSystem F n 1 1 -> nat -> seq F.
Variable dcgain : LinearSystem F n 1 1 -> 'M[F]_1.
Variables sys1 sys2 : LinearSystem F n 1 1.

Hypothesis eqA : ss_A sys1 = ss_A sys2.
Hypothesis eqB : ss_B sys1 = ss_B sys2.
Hypothesis eqC : ss_C sys1 = ss_C sys2.
Hypothesis eq_analog : analog sys1 = analog sys2.
Hypothesis eqG : dcgain sys1 - ss_D sys1 = dcgain sys2 - ss_D sys2.

Local Notation l1 := (l1_norm eig solve fminbound cont2discrete impulse dcgain).

(* the two equations of the loop *)
Lemma l1_loop0 (sys : LinearSystem F n 1 1) rtol ml alpha (st : bounds F) :
  l1_loop solve fminbound cont2discrete impulse dcgain sys rtol ml alpha 0 st =
  if loop_guard rtol ml st then None else Some (Ok st).
Proof. by []. Qed.

Lemma l1_loopS (sys : LinearSystem F n 1 1) rtol ml alpha fuel
    (st : bounds F) :
  l1_loop solve fminbound cont2discrete impulse dcgain sys rtol ml alpha
    fuel.+1 st =
  if loop_guard rtol ml st then
    match refine solve fminbound cont2discrete impulse dcgain sys alpha st with
    | Ok st' =>
        l1_loop solve fminbound cont2discrete impulse dcgain sys rtol ml alpha
          fuel st'
    | Raise e => Some (Raise e)
    end
  else Some (Ok st).
Proof. by []. Qed.

Lemma feedthrough_init alpha :
  init solve fminbound dcgain sys1 alpha = init solve fminbound dcgain sys2 alpha.
Proof. by rewrite /init /fopt /G0 eqA eqB eqC eqG. Qed.

Lemma feedthrough_refine alpha (st : bounds F) :
  refine solve fminbound cont2discrete impulse dcgain sys1 alpha st =
  refine solve fminbound cont2discrete impulse dcgain sys2 alpha st.
Proof. by rewrite /refine /candidates_at /G0 eqA eqB eqC eqG. Qed.

Lemma feedthrough_loop rtol ml alpha fuel (st : bounds F) :
  l1_loop solve fminbound cont2discrete impulse dcgain sys1 rtol ml alpha fuel st =
  l1_loop solve fminbound cont2discrete impulse dcgain sys2 rtol ml alpha fuel st.
Proof.
elim: fuel st => [|fuel IH] st; first by rewrite !l1_loop0.
rewrite (l1_loopS sys1) (l1_loopS sys2) (feedthrough_refine alpha st).
case: loop_guard; last by [].
case: refine => [st'|e]; last by [].
exact: IH.
Qed.

(** l1_norm sets the feedthrough aside and adds |D| back at the end: two
    systems with the same A, B, C and the same dcgain - D go through the
    same bounds, fail alike, and return estimates that differ by
    |D2| - |D1| with the same relative half-width. *)
Theorem l1_norm_feedthrough (rtol : F) (ml fuel : nat) :
  l1_norm eig solve fminbound cont2discrete impulse dcgain fuel sys2 rtol ml =
  match l1_norm eig solve fminbound cont2discrete impulse dcgain
          fuel sys1 rtol ml with
  | Some (Ok (est, hw)) =>
      Some (Ok (est - `|ss_D sys1 0 0| + `|ss_D sys2 0 0|, hw))
  | r => r
  end.
Proof.
rewrite /l1_norm -eq_analog -eqA; case: (analog sys1) => //=.
case: np_max => //= alpha; case: ifP => // _.
rewrite -feedthrough_init -feedthrough_loop.
case: l1_loop => [[st|e]|] //=.
by rewrite /l1_return addrK.
Qed.

End Feedthrough.

(* ====================================================================== *)
(*  A worked instance: the first-order lowpass 1 / (s + 1)                *)
(* ====================================================================== *)

(* A = [[-1]], B = [[1]], C = [[1]], D = [[0]], analog *)
Definition lowpass : LinearSystem algR 1 1 1 :=
  MkSys (-1)%:M 1%:M 1%:M 0 true.

(* the eigenvalue of a 1 x 1 matrix is its entry *)
Definition eig1 (A : 'M[algR]_1) : seq (algR * algR) := [:: (A 0 0, 0)].

(* A P + P A^T = Q for a scalar matrix A = a I: P = Q / (2 a) *)
Definition solve_scalar (k : nat) (A Q : 'M[algR]_k.+1) : 'M[algR]_k.+1 :=
  (2 * A 0 0)^-1 *: Q.

(* a minimiser that settles for the midpoint of the interval *)
Definition fminbound1 (f : algR -> algR) (x1 x2 xtol : algR) :
  fmin_result algR :=
  let x := (x1 + x2) / 2 in FminResult x (f x) 0 1.

(* the crudest discretisation: the transition matrix of a step of length
   zero, and an impulse response that is zero at every sample             *)
Definition c2d0 (n : nat) (sys : LinearSystem algR n 1 1) (dt : algR) :
  LinearSystem algR n 1 1 :=
  MkSys 1%:M (dt *: ss_B sys) (ss_C sys) (ss_D sys) false.

Definition impulse0 (n : nat) (dsys : LinearSystem algR n 1 1) (N : nat) :
  seq algR :=
  nseq N 0.

(* -C A^-1 B + D = 1 for the lowpass *)
Definition dcgain1 (sys : LinearSystem algR 1 1 1) : 'M[algR]_1 := 1%:M.

Lemma lowpass_stable : stable_with eig1 lowpass (-1).
Proof. by split; [rewrite /= !mxE | lra]. Qed.

Lemma lowpass_G0 : G0 dcgain1 lowpass = 1.
Proof. by rewrite /G0 /= subr0 mxE. Qed.

(* the tail bound at the midpoint, from the state x = B^T *)
Lemma lowpass_tail :
  fval (fminbound1
          (fun sig => _normtail (@solve_scalar 0) sig (ss_A lowpass)
                        (ss_B lowpass)^T (ss_C lowpass))
          0 (- -1) (xtol (-1))) = 1.
Proof.
rewrite /fminbound1 /= /_normtail /solve_scalar /=.
rewrite !(mxE, big_ord1) /= ?mulr1n -[RHS]sqrtr1; congr sqrtr.
by field.
Qed.

Lemma lowpass_fopt : fopt (@solve_scalar 0) fminbound1 lowpass (-1) = 1.
Proof. exact: lowpass_tail. Qed.

(* with a transition matrix 1 the state stays where it starts *)
Lemma traject_fixed (T : Type) (f : T -> T) (x : T) k :
  f x = x -> traject f x k = nseq k x.
Proof. by move=> fx; elim: k => //= k <-; rewrite fx. Qed.

Lemma lowpass_sound rtol max_length :
  sound_bounds (@solve_scalar 0) fminbound1 (@c2d0 1) (@impulse0 1) dcgain1 lowpass
    rtol max_length (-1) 1.
Proof.
split; first by rewrite lowpass_G0 lowpass_fopt normr1 lexx.
move=> st c _ /candidates_inv[-> -> [xs [x [eqxs x_xs ->]]] Ui_ge0].
rewrite lowpass_G0 /impulse0 /np_sum map_nseq normr0 !big_nseq.
rewrite -!/(iterop _ _ _ _) !iter_addr_0 !mul0rn subr0 normr1 add0r lexx.
suff -> : x = (ss_B lowpass)^T by rewrite lowpass_tail lerDr.
move: eqxs x_xs; rewrite /_state_impulse; case: ifP => // _ [<-] /=.
rewrite subn0 traject_fixed; first by rewrite trmxK mul1mx.
by rewrite mem_nseq => /andP[_ /eqP].
Qed.

Local Notation lp_init := (init (@solve_scalar 0) fminbound1 dcgain1 lowpass (-1)).
Local Notation lp_refine :=
  (refine (@solve_scalar 0) fminbound1 (@c2d0 1) (@impulse0 1) dcgain1 lowpass (-1)).

(* with rtol = 0 and max_length = 16 the loop is entered once *)
Lemma lowpass_guard : loop_guard 0 16 lp_init.
Proof.
rewrite /loop_guard /guard_division /= lowpass_G0 lowpass_fopt normr1.
by rewrite /np_div oner_eq0 /= subrr mulr0 mul0r.
Qed.

(* ---------------------------------------------------------------------- *)
(* the lowpass under the forward Euler discretisation                     *)

(* cont2discrete(sys, dt, method='euler'): A_d = I + dt A, B_d = dt B *)
Definition c2d_euler (n : nat) (sys : LinearSystem algR n 1 1) (dt : algR) :
  LinearSystem algR n 1 1 :=
  MkSys (1%:M + dt *: ss_A sys) (dt *: ss_B sys) (ss_C sys) (ss_D sys) false.

(* the response of a discrete system to a unit pulse: y[0] = D and
   y[k] = C A^(k-1) B                                                     *)
Definition impulse_d (n : nat) (dsys : LinearSystem algR n 1 1) (N : nat) :
  seq algR :=
  if N is N'.+1 then
    ss_D dsys 0 0 ::
    [seq (ss_C dsys *m v) 0 0
    | v <- traject (mulmx (ss_A dsys)) (ss_B dsys) N']
  else [::].

(* a minimiser that settles a fifth of the way into the interval *)
Definition fminbound5 (f : algR -> algR) (x1 x2 xtol : algR) :
  fmin_result algR :=
  let x := x1 + (x2 - x1) / 5 in FminResult x (f x) 0 1.

Lemma traject_scale (V : lmodType algR) (g : V -> V) (q : algR) (x : V) k :
  (forall v, g v = q *: v) ->
  traject g x k = [seq q ^+ i *: x | i <- iota 0 k].
Proof.
move=> gE; elim: k x => //= k IH x; rewrite expr0 scale1r; congr cons.
rewrite IH (iotaDl 1 0 k) -map_comp; apply: eq_map => i /=.
by rewrite gE scalerA add1n exprSr.
Qed.

Lemma geometric_sum (q : algR) m :
  \sum_(i <- iota 0 m) (1 - q) * q ^+ i = 1 - q ^+ m.
Proof.
rewrite -[m in iota 0 m]subn0 -/(index_iota 0 m).
elim: m => [|m IH]; first by rewrite big_nil expr0 subrr.
by rewrite big_nat_recr //= IH exprS; ring.
Qed.

Lemma map_norm_ge0 (v : seq algR) : all (>= 0) v -> [seq `|x| | x <- v] = v.
Proof.
by move/allP=> v0; rewrite -[RHS]map_id; apply/eq_in_map=> x /v0/ger0_norm.
Qed.

Lemma mem_zip (S T : eqType) (s : seq S) (t : seq T) p :
  p \in zip s t -> p.1 \in s /\ p.2 \in t.
Proof.
elim: s t => [|x s IH] [|y t] //=; rewrite !in_cons.
case/orP=> [/eqP->|/IH[-> ->]]; first by rewrite !eqxx.
by rewrite !orbT.
Qed.

(* a mask that is False throughout assigns nothing *)
Lemma mask_assign_none (F : rcfType) (a : seq F) mask w :
  all negb mask -> mask_assign a mask w = a.
Proof.
by elim: a mask w => [|x a IH] [|c m] [|y w] //= /andP[/negbTE-> /IH->].
Qed.

(* the tail bound a fifth of the way into (0, 1), from the state v *)
Lemma lowpass_tail5 (v : 'rV[algR]_1) :
  0 <= v 0 0 ->
  fval (fminbound5
          (fun sig => _normtail (@solve_scalar 0) sig (ss_A lowpass) v
                        (ss_C lowpass))
          0 (- -1) (xtol (-1))) = 5 / 4 * v 0 0.
Proof.
move=> v0; rewrite /fminbound5 /= /_normtail /solve_scalar /=.
rewrite !(mxE, big_ord1) /= ?mulr1n.
have -> : 5 / 4 * v 0 0 = `|5 / 4 * v 0 0|.
  by rewrite ger0_norm // mulr_ge0 // divr_ge0 ?ler0n.
by rewrite -sqrtr_sqr; congr sqrtr; field.
Qed.

Local Notation le_init :=
  (init (@solve_scalar 0) fminbound5 dcgain1 lowpass (-1)).
Local Notation le_cands :=
  (candidates_at (@solve_scalar 0) fminbound5 (@c2d_euler 1) (@impulse_d 1)
     dcgain1 lowpass (-1)).
Local Notation le_refine :=
  (refine (@solve_scalar 0) fminbound5 (@c2d_euler 1) (@impulse_d 1) dcgain1
     lowpass (-1)).

Lemma lowpass_fopt5 : fopt (@solve_scalar 0) fminbound5 lowpass (-1) = 5 / 4.
Proof.
rewrite /fopt lowpass_tail5 /= !mxE /= ?mulr1n ?mulr1 //.
Qed.

Local Notation phi_e := (15 / 16 : algR).
Local Notation lp0 :=
  (MkSys (ss_A lowpass) (ss_B lowpass) (ss_C lowpass) 0 true).

Lemma euler_Phi : ss_A (c2d_euler lp0 (1 - phi_e)) = phi_e%:M.
Proof. by apply/matrixP=> i j; rewrite !mxE !ord1 /= !mulr1n; field. Qed.

(* the states x[i] = Phi^i B of the simulation *)
Lemma euler_states k :
  traject (fun v : 'rV[algR]_1 => (ss_A (c2d_euler lp0 (1 - phi_e)) *m v^T)^T)
          (ss_B lowpass)^T k =
  [seq phi_e ^+ i *: (1%:M : 'rV[algR]_1) | i <- iota 0 k].
Proof.
rewrite euler_Phi (@traject_scale _ _ phi_e) /= ?tr_scalar_mx // => v.
by rewrite mul_scalar_mx linearZ /= trmxK.
Qed.

(* the samples y[0] = 0, y[k] = dt Phi^(k-1) *)
Lemma euler_impulse k :
  impulse_d (c2d_euler lp0 (1 - phi_e)) k.+1 =
  0 :: [seq (1 - phi_e) * phi_e ^+ i | i <- iota 0 k].
Proof.
rewrite /impulse_d euler_Phi [ss_D _]/= [ss_B _]/= [ss_C _]/= mxE.
congr cons; rewrite (@traject_scale _ _ phi_e).
  by move=> v; rewrite mul_scalar_mx.
rewrite -map_comp; apply: eq_map => i /=.
by rewrite mul1mx !mxE /= mulr1n; ring.
Qed.

Lemma euler_impulse_ge0 k :
  all (>= 0) (impulse_d (c2d_euler lp0 (1 - phi_e)) k.+1).
Proof.
rewrite euler_impulse /= lexx; apply/allP=> y /mapP[i _ ->].
by rewrite mulr_ge0 ?exprn_ge0 //; lra.
Qed.

Lemma euler_impulse_sum k :
  np_sum (impulse_d (c2d_euler lp0 (1 - phi_e)) k.+1) = 1 - phi_e ^+ k.
Proof.
by rewrite euler_impulse /np_sum big_cons add0r big_map geometric_sum.
Qed.

Lemma bind_Ok (F A B : Type) (a : A) (k : A -> result F B) :
  bind (Ok a) k = k a.
Proof. by []. Qed.

Lemma sqrt_lt (s c : algR) : 0 < c -> s < c ^+ 2 -> Num.sqrt s < c.
Proof.
move=> c0 lt_s; rewrite -[c]ger0_norm ?ltW // -sqrtr_sqr ltr_sqrt //.
exact: exprn_gt0.
Qed.

(* |C x[i]| = Phi^i stays above 1/4 over the sixteen samples *)
Lemma euler_sample_floor i : (i < 16)%N -> 1 / 4 <= phi_e ^+ i.
Proof.
move=> lt_i; have : phi_e ^+ 15 <= phi_e ^+ i by apply: ler_wiXn2l => //; lra.
by apply: le_trans; lra.
Qed.

(* and the thresholds of eq (41) stay below *)
Lemma euler_thresh_ceiling j :
  Num.sqrt ((1 - phi_e) * ((1 - phi_e ^+ 2) / 2 * (phi_e ^+ j) ^+ 2)) < 1 / 4.
Proof.
apply: sqrt_lt; first by lra.
have : 0 <= (phi_e ^+ j) ^+ 2 <= 1.
  by rewrite exprn_ge0 ?exprn_ile1 ?exprn_ge0 //; lra.
move: (_ ^+ 2) => z; lra.
Qed.

Lemma euler_candidates :
  le_cands (st_T le_init) (st_N le_init) =
  Ok (Candidates (1 - phi_e ^+ 15) (phi_e ^+ 15) (1 - phi_e ^+ 15)
                 (5 / 4 * phi_e ^+ 14)).
Proof.
rewrite /candidates_at /_state_impulse [st_N _]/= [st_T _]/=.
rewrite -[(2 ^ 4)%N]/16%N [(0 < 16)%N]/= subn0.
have -> : (-1 / -1 / 16%:R : algR) = 1 - phi_e by field.
rewrite euler_states map_norm_ge0 ?euler_impulse_ge0 // euler_impulse_sum.
rewrite lowpass_G0 [nseq 0 _]/= cat0s bind_Ok.
have -> : drop_last [seq phi_e ^+ i *: (1%:M : 'rV[algR]_1) | i <- iota 0 16] =
          [seq phi_e ^+ i *: (1%:M : 'rV[algR]_1) | i <- iota 0 15].
  by rewrite /drop_last size_map size_iota -map_take take_iota.
have -> : last_row [seq phi_e ^+ i *: (1%:M : 'rV[algR]_1) | i <- iota 0 15] =
          Ok (phi_e ^+ 14 *: (1%:M : 'rV[algR]_1)).
  by [].
have x14E : (phi_e ^+ 14 *: (1%:M : 'rV[algR]_1)) 0 0 = phi_e ^+ 14.
  by rewrite !mxE eqxx mulr1n mulr1.
have x14_ge0 : 0 <= (phi_e ^+ 14 *: (1%:M : 'rV[algR]_1)) 0 0.
  by rewrite x14E exprn_ge0 //; lra.
rewrite bind_Ok (lowpass_tail5 x14_ge0) x14E.
rewrite mask_assign_none ?euler_impulse_sum.
  rewrite all_map; apply/allP=> -[[a b] t] /mem_zip[/mem_zip[a_in _] t_in].
  rewrite [preim _ _ _]/= -ltNge lt_max; apply/orP; left.
  have /mapP[v /mapP[i i_in ->] /= ->] := mem_take a_in.
  have /mapP[u /mapP[j _ ->] /= ->] := t_in.
  rewrite /solve_scalar mul1mx !(mxE, big_ord1) !eqxx ?mulr1n.
  have q_ge0 : 0 <= phi_e by lra.
  rewrite !mulr1 ger0_norm ?exprn_ge0 //.
  apply: (@lt_le_trans _ _ (1 / 4)); last first.
    by apply: euler_sample_floor; move: i_in; rewrite mem_iota.
  set s := (X in Num.sqrt X).
  have -> : s = (1 - phi_e) * ((1 - phi_e ^+ 2) / 2 * (phi_e ^+ j) ^+ 2).
    by rewrite /s; field.
  exact: euler_thresh_ceiling.
have -> : 1 - (1 - phi_e ^+ 15) = phi_e ^+ 15 by ring.
by rewrite ger0_norm // exprn_ge0 //; lra.
Qed.

Lemma py_max_same (a : algR) : py_max a a = a.
Proof. by rewrite /py_max ltxx. Qed.

Lemma euler_upper_bound :
  py_max (py_min (5 / 4) (1 + 5 / 16 * phi_e ^+ 14)) 1 =
  1 + 5 / 16 * phi_e ^+ 14.
Proof.
have lt_c : 1 + 5 / 16 * phi_e ^+ 14 < 5 / 4 by lra.
have lt_1 : 1 < 1 + 5 / 16 * phi_e ^+ 14 by lra.
by rewrite /py_min lt_c /py_max ltNge (ltW lt_1).
Qed.

(* the pass leaves L at the norm 1 and lowers U from 5/4 *)
Lemma euler_pass :
  exists st',
    [/\ le_refine le_init = Ok st', st_L le_init = 1, st_U le_init = 5 / 4,
        st_L st' = 1 & st_U st' = 1 + 5 / 16 * phi_e ^+ 14].
Proof.
exists (update le_init
          (Candidates (1 - phi_e ^+ 15) (phi_e ^+ 15) (1 - phi_e ^+ 15)
             (5 / 4 * phi_e ^+ 14))).
have L0 : st_L le_init = 1 by rewrite /= lowpass_G0 normr1.
have U0 : st_U le_init = 5 / 4 by rewrite /= lowpass_fopt5.
have L1 : st_L (update le_init
             (Candidates (1 - phi_e ^+ 15) (phi_e ^+ 15) (1 - phi_e ^+ 15)
                (5 / 4 * phi_e ^+ 14))) = 1.
  by rewrite /update [st_L _]/= -/(G0 _ _) lowpass_G0 normr1 subrK py_max_same.
split=> //; first by rewrite /refine euler_candidates.
rewrite update_U L1 U0 [U_impulse _]/= [U_tail _]/=.
have -> : 1 - phi_e ^+ 15 + 5 / 4 * phi_e ^+ 14 = 1 + 5 / 16 * phi_e ^+ 14.
  by field.
exact: euler_upper_bound.
Qed.

(* with rtol = 0 and max_length = 16 the loop is entered *)
Lemma euler_guard : loop_guard 0 16 le_init.
Proof.
rewrite /loop_guard /guard_division /= lowpass_G0 lowpass_fopt5 normr1.
by rewrite /np_div oner_eq0 /= divr1; lra.
Qed.


(* ---------------------------------------------------------------------- *)
(* the lowpass with a simulation that overshoots                          *)

(* an impulse response that is 1 at every sample *)
Definition impulse_ones (n : nat) (dsys : LinearSystem algR n 1 1) (N : nat) :
  seq algR :=
  nseq N 1.

Lemma np_sum_nseq (F : rcfType) (k : nat) (x : F) : np_sum (nseq k x) = x *+ k.
Proof. by rewrite /np_sum big_nseq -/(iterop _ _ _ _) iter_addr_0. Qed.

(* sixteen ones against a steady-state gain of 1 *)
Lemma ones_lower_bound : py_max (1 : algR) (16%:R + `|1 - 16%:R|) = 31.
Proof.
have -> : (1 - 16%:R : algR) = - 15 by ring.
by rewrite normrN ger0_norm ?ler0n // /py_max ifT; lra.
Qed.


(* the first pass over the lowpass doubles N and settles T *)
Lemma horizon_doubling_lowpass :
  exists c st',
    [/\ candidates_at (@solve_scalar 0) fminbound1 (@c2d0 1) (@impulse0 1) dcgain1
          lowpass (-1) (st_T lp_init) (st_N lp_init) = Ok c,
        lp_refine lp_init = Ok st',
        st_N st' = (st_N lp_init * 2)%N,
        U_impulse c - L_impulse c < U_tail c - L_tail c ->
          st_T st' = st_T lp_init * 2 &
        ~~ (U_impulse c - L_impulse c < U_tail c - L_tail c) ->
          st_T st' = st_T lp_init].
Proof.
exact: (@horizon_doubling algR 1 (@solve_scalar 0) fminbound1 (@c2d0 1) (@impulse0 1)
          dcgain1 lowpass 0 16 (-1) lp_init (ReachInit _ _ _ _ _ _ _ _ _)).
Defined.

(* Line 220 on two sets of sums with the same tail bounds, L_tail = 1/2
   and U_tail = 1, from the same state (L = 1, U = 2, N = 16, T = 1): with
   L_impulse = U_impulse = 1/2 the test is 0 < 1/2 and T becomes 2; with
   L_impulse = 1/2 and U_impulse = 3/2 the test is 1 < 1/2 and T stays 1.
   The tail bounds, and so their reductions, are the same in both: the
   choice is not settled by them.                                         *)
Lemma horizon_not_decided_by_tails : ~ horizon_decided_by_tails algR.
Proof.
case=> rule eq_rule.
pose st : bounds algR := Bounds 1 2 16 1.
pose c1 : candidates algR := Candidates (1 / 2) (1 / 2) (1 / 2) 1.
pose c2 : candidates algR := Candidates (1 / 2) (1 / 2) (3 / 2) 1.
have T1 : st_T (update st c1) = 2.
  by rewrite update_T /= ifT ?mul1r //; lra.
have T2 : st_T (update st c2) = 1.
  by rewrite update_T /= ifF //; apply/negbTE; rewrite -leNgt; lra.
have := eq_rule st c1 c2; have := eq_rule st c1 c1.
rewrite T1 T2 /= => <- /eqP; apply/negP.
by rewrite eq_sym; apply/eqP; lra.
Qed.

(* l1_norm on the lowpass with the default rtol and max_length *)
Lemma l1_norm_returns_lowpass :
  exists k st,
    [/\ (k <= (trunc_log 2 (2 ^ 18 %/ 16)).+1)%N,
        loop_runs (@solve_scalar 0) fminbound1 (@c2d0 1) (@impulse0 1) dcgain1 lowpass
          (10 ^- 6) (2 ^ 18) (-1) lp_init k (Ok st),
        (2 ^ 18 < st_N st)%N \/
        ((st_N st <= 2 ^ 18)%N /\ ~~ xge (half_width st) (10 ^- 6)) &
        forall fuel, (k <= fuel)%N ->
          l1_norm eig1 (@solve_scalar 0) fminbound1 (@c2d0 1) (@impulse0 1) dcgain1
            fuel lowpass (10 ^- 6) (2 ^ 18) =
          Some (Ok ((st_U st + st_L st) / 2 + `|ss_D lowpass 0 0|,
                    np_div (2^-1 * (st_U st - st_L st)) (st_L st)))].
Proof.
exact: (@l1_norm_returns algR 1 eig1 (@solve_scalar 0) fminbound1 (@c2d0 1)
          (@impulse0 1) dcgain1 lowpass (10 ^- 6) (2 ^ 18) (-1) isT lowpass_stable).
Defined.

(* with max_length = 8 the loop is skipped: l1_norm returns the norm 1 of
   the lowpass, with half-width 0, from the initial bounds alone *)
Lemma l1_norm_short_ceiling_lowpass :
  l1_norm eig1 (@solve_scalar 0) fminbound1 (@c2d0 1) (@impulse0 1) dcgain1
    0 lowpass (10 ^- 6) 8 = Some (Ok (1, Finite 0)).
Proof.
have [_ _ ->] :=
  @l1_norm_short_ceiling algR 1 eig1 (@solve_scalar 0) fminbound1 (@c2d0 1)
    (@impulse0 1) dcgain1 lowpass (10 ^- 6) 8 (-1) isT isT lowpass_stable.
rewrite lowpass_fopt -/(G0 dcgain1 lowpass) lowpass_G0 normr1 /= mxE normr0.
rewrite /np_div oner_eq0 subrr mulr0 mul0r addr0.
by congr (Some (Ok (_, _))); field.
Defined.

(* ====================================================================== *)
(*  A worked instance with no steady-state gain: s / (s + 1)^2            *)
(* ====================================================================== *)

Definition mx_of_rows (m n : nat) (rows : seq (seq algR)) : 'M[algR]_(m, n) :=
  \matrix_(i, j) nth 0 (nth [::] rows i) j.

(* A = [[-2, -1], [1, 0]], B = [[1], [0]], C = [[1, 0]], D = [[0]] *)
Definition bandpass : LinearSystem algR 2 1 1 :=
  MkSys (mx_of_rows 2 2 [:: [:: -2; -1]; [:: 1; 0]])
        (mx_of_rows 2 1 [:: [:: 1]; [:: 0]])
        (mx_of_rows 1 2 [:: [:: 1; 0]])
        0 true.

(* the double eigenvalue -1 of the bandpass *)
Definition eig_bp (A : 'M[algR]_2) : seq (algR * algR) :=
  [:: (-1, 0); (-1, 0)].

(* -C A^-1 B + D equals D for a system with C A^-1 B = 0, as the bandpass *)
Definition dcgain_D (n : nat) (sys : LinearSystem algR n 1 1) : 'M[algR]_1 :=
  ss_D sys.

Lemma bandpass_stable : stable_with eig_bp bandpass (-1).
Proof. by split; [rewrite /= /py_max ltxx | lra]. Qed.

Local Notation bp_init :=
  (init (@solve_scalar 1) fminbound1 (@dcgain_D 2) bandpass (-1)).

(* the bandpass with the default rtol and max_length: the first guard
   evaluation divides by L = 0 *)
Lemma l1_norm_zero_divisor_bandpass :
  st_L bp_init = 0 /\
  guard_division (2 ^ 18) bp_init
  = Some (2^-1 * (fopt (@solve_scalar 1) fminbound1 bandpass (-1) - 0), 0).
Proof.
have le16 : (16 <= 2 ^ 18)%N by rewrite (@leq_exp2l 2 4 18).
have [_ _ /(_ le16) -> _ _] :=
  @l1_norm_zero_divisor algR 2 eig_bp (@solve_scalar 1) fminbound1 (@c2d0 2)
    (@impulse0 2) (@dcgain_D 2) bandpass (10 ^- 6) (2 ^ 18) (-1) isT
    bandpass_stable erefl.
by split=> //; exact: init_L_zero.
Defined.

(* the bandpass with max_length = 8: the system is analog and stable and
   its dcgain equals D, yet the first evaluation of the guard divides
   nothing, by zero or otherwise *)
Lemma first_guard_short_circuits :
  [/\ analog bandpass, stable_with eig_bp bandpass (-1),
      dcgain_D bandpass = ss_D bandpass &
      ~ exists a, guard_division 8 bp_init = Some (a, 0)].
Proof. by split=> //; [exact: bandpass_stable | case]. Qed.

(* ====================================================================== *)
(*  A worked instance for the balancing: two states, gramians R and I     *)
(* ====================================================================== *)

Definition LR0 : 'M[algR]_2 := mx_of_rows 2 2 [:: [:: 12; 0]; [:: 7; 12]].

(* A = -I/2, B = LR0, C = I, D = 0: the gramians are B B^T and I *)
Definition sys_b : LinearSystem algR 2 2 2 :=
  MkSys (- 2^-1)%:M LR0 1%:M 0 true.

(* the Cholesky factor of a 2 x 2 matrix, lower triangular *)
Definition chol2 (M : 'M[algR]_2) : option 'M[algR]_2 :=
  let a := M ord0 ord0 in
  let b := M (lift ord0 ord0) ord0 in
  let c := M (lift ord0 ord0) (lift ord0 ord0) in
  if (0 < a) && (0 < c - b ^+ 2 / a) then
    Some (mx_of_rows 2 2 [:: [:: Num.sqrt a; 0];
                            [:: b / Num.sqrt a; Num.sqrt (c - b ^+ 2 / a)]])
  else None.

(* a singular value decomposition of LR0, in the form svd returns it
   (U, s, Vh): LR0 = U0 diag(16, 9) Vh0                                   *)
Definition U0 : 'M[algR]_2 :=
  mx_of_rows 2 2 [:: [:: 3 / 5; - (4 / 5)]; [:: 4 / 5; 3 / 5]].
Definition s0 : 'rV[algR]_2 := mx_of_rows 1 2 [:: [:: 16; 9]].
Definition Vh0 : 'M[algR]_2 :=
  mx_of_rows 2 2 [:: [:: 4 / 5; 3 / 5]; [:: - (3 / 5); 4 / 5]].

Definition svd_b (M : 'M[algR]_2) : 'M[algR]_2 * 'rV[algR]_2 * 'M[algR]_2 :=
  (U0, s0, Vh0).

(* the eigenvalues 256 and 81 of I (LR0 LR0^T) *)
Definition eig_b (M : 'M[algR]_2) : seq (algR * algR) :=
  [:: (256, 0); (81, 0)].

(* evaluating concrete 2 x 2 matrices entry by entry *)
Ltac mx2_eval := rewrite !(mxE, big_ord_recl, big_ord0) /= ?mulr1n ?mulr0n.

Ltac mx2_ext :=
  apply/matrixP; do 2![case; do 2?[case=> //]; move=> ?];
  mx2_eval; rewrite /= ?mulr1n ?mulr0n.

Lemma LR0_unit : LR0 \in unitmx.
Proof.
pose X : 'M[algR]_2 :=
  mx_of_rows 2 2 [:: [:: 1 / 12; 0]; [:: - (7 / 144); 1 / 12]].
suff /mulmx1_unit[] : LR0 *m X = 1%:M by [].
by mx2_ext; field.
Qed.

Lemma svd_b_factors : LR0 = U0 *m diag_mx s0 *m Vh0.
Proof. by mx2_ext; field. Qed.

Lemma U0_orthogonal : U0^T *m U0 = 1%:M.
Proof. by mx2_ext; field. Qed.

Lemma Vh0_orthogonal : Vh0 *m Vh0^T = 1%:M.
Proof. by mx2_ext; field. Qed.

Local Notation R_b := (control_gram (@solve_scalar 1) (@solve_scalar 1) sys_b).
Local Notation O_b := (observe_gram (@solve_scalar 1) (@solve_scalar 1) sys_b).
Local Notation balance_b :=
  (balanced_transformation (@solve_scalar 1) (@solve_scalar 1) chol2 svd_b).

Lemma solve_scalar_half (Q : 'M[algR]_2) :
  solve_scalar (- 2^-1)%:M (- Q) = Q.
Proof.
rewrite /solve_scalar mxE /= mulr1n scalerN -scaleNr.
by rewrite (_ : - _ = 1) ?scale1r //; field.
Qed.

Lemma sys_b_R : R_b = LR0 *m LR0^T.
Proof. by rewrite /control_gram /_H2P /= solve_scalar_half. Qed.

Lemma sys_b_O : O_b = 1%:M.
Proof.
rewrite /observe_gram /_H2P /= tr_scalar_mx solve_scalar_half.
by rewrite !trmx1 mulmx1.
Qed.

Lemma sys_b_posdef : posdef R_b /\ posdef O_b.
Proof.
rewrite sys_b_R sys_b_O; split; first exact: posdef_gram LR0_unit.
by rewrite -[1%:M]mulmx1 -{2}[1%:M]trmx1; apply: posdef_gram; rewrite unitmx1.
Qed.

Lemma sqrt_sq (x : algR) : 0 <= x -> Num.sqrt (x ^+ 2) = x.
Proof. by move=> x_ge0; rewrite sqrtr_sqr ger0_norm. Qed.

Lemma chol2_R : chol2 R_b = Some LR0.
Proof.
rewrite sys_b_R /chol2; mx2_eval.
have -> : 12 * 12 + (0 * 0 + 0) = (12 : algR) ^+ 2 by ring.
have -> : 7 * 7 + (12 * 12 + 0) - (7 * 12 + (12 * 0 + 0)) ^+ 2 / 12 ^+ 2
          = (12 : algR) ^+ 2 by field.
rewrite !sqrt_sq ?exprn_gt0 //=; congr Some.
by mx2_ext; field.
Qed.

Lemma chol2_O : chol2 O_b = Some 1%:M.
Proof.
rewrite sys_b_O /chol2; mx2_eval.
have -> : 1 - 0 ^+ 2 / 1 = (1 : algR) by field.
rewrite ltr01 /= sqrtr1; congr Some.
by mx2_ext; field.
Qed.

Lemma LR0_trig : is_trig_mx LR0.
Proof.
apply/is_trig_mxP; do 2![case; do 2?[case=> //]; move=> ?] => //= _.
by mx2_eval.
Qed.

Lemma sys_b_cholesky : cholesky_spec chol2 R_b /\ cholesky_spec chol2 O_b.
Proof.
split=> _; [exists LR0 | exists 1%:M]; split=> //.
- exact: chol2_R.
- exact: LR0_trig.
- by rewrite sys_b_R.
- exact: chol2_O.
- by rewrite trmx1 mulmx1 sys_b_O.
Qed.

Lemma sys_b_svd LR LO :
  chol2 R_b = Some LR -> chol2 O_b = Some LO -> svd_spec svd_b (LO^T *m LR).
Proof.
rewrite chol2_R chol2_O => -[<-] [<-]; rewrite trmx1 mul1mx /svd_spec /svd_b.
split; [exact: svd_b_factors | exact: U0_orthogonal | exact: Vh0_orthogonal|].
by do 1![case; do 2?[case=> //]; move=> ?]; mx2_eval; lra.
Qed.

Lemma s0_squares : [seq s0 0 i ^+ 2 | i <- enum 'I_2] = [:: 256; 81].
Proof.
rewrite enum_ordSl enum_ordSl enum_ord0 /=; mx2_eval.
by congr [:: _; _]; ring.
Qed.

Lemma sys_b_char_poly :
  char_poly (O_b *m R_b) = \prod_(x <- [:: 256; 81]) ('X - x%:P).
Proof.
rewrite sys_b_O sys_b_R -s0_squares -{1}[1%:M]mulmx1 -{2}[1%:M]trmx1.
apply: (char_poly_gram_product _ U0_orthogonal Vh0_orthogonal).
  by rewrite unitmx1.
by rewrite trmx1 mul1mx; exact: svd_b_factors.
Qed.

Lemma sys_b_eig : eig_spec eig_b (O_b *m R_b).
Proof.
move=> w; rewrite sys_b_char_poly => /prod_XsubC_perm perm_w.
exact: (perm_map (fun x => (x, 0)) perm_w).
Qed.

(* the hypotheses of balanced_transformation_inverse hold for sys_b, and
   the call returns two inverse matrices *)
Lemma balanced_transformation_inverse_sys_b :
  exists T Tinv s,
    [/\ balance_b sys_b = Ok (T, Tinv, s), T *m Tinv = 1%:M &
        Tinv *m T = 1%:M].
Proof.
have [pdR pdO] := sys_b_posdef; have [chR chO] := sys_b_cholesky.
have [LR [LO [U [s [V [_ _ _ [T [Tinv [run _ _ TTi TiT]]]]]]]]] :=
  @balanced_transformation_inverse algR 2 2 2 (@solve_scalar 1)
    (@solve_scalar 1) chol2 svd_b sys_b isT pdR pdO chR chO sys_b_svd.
by exists T, Tinv, s.
Defined.

(* the hypotheses of hankel_matches_balanced hold for sys_b: hankel
   returns a permutation of the singular values 16 and 9 *)
Lemma hankel_matches_balanced_sys_b :
  exists T Tinv s,
    [/\ balance_b sys_b = Ok (T, Tinv, s),
        sorted >=%R (hankel (@solve_scalar 1) (@solve_scalar 1) eig_b sys_b) &
        perm_eq (hankel (@solve_scalar 1) (@solve_scalar 1) eig_b sys_b)
                (entries s)].
Proof.
have [pdR pdO] := sys_b_posdef; have [chR chO] := sys_b_cholesky.
have [_ srt [LR [LO [T [Tinv [s [_ run _ prm]]]]]]] :=
  @hankel_matches_balanced algR 2 2 2 (@solve_scalar 1) (@solve_scalar 1)
    chol2 svd_b eig_b sys_b isT pdR pdO chR chO sys_b_svd sys_b_eig.
by exists T, Tinv, s.
Defined.

(* ====================================================================== *)
(*  A three-state instance: the balancing as the specification words it   *)
(* ====================================================================== *)

Ltac mx3_ext :=
  apply/matrixP; do 2![case; do 3?[case=> //]; move=> ?];
  mx2_eval; rewrite /= ?mulr1n ?mulr0n.

(* the Cholesky factor of a 3 x 3 matrix, lower triangular with a positive
   diagonal (Cholesky-Banachiewicz); None when a pivot is not positive    *)
Definition chol3 (M : 'M[algR]_3) : option 'M[algR]_3 :=
  let i0 : 'I_3 := ord0 in
  let i1 : 'I_3 := lift ord0 ord0 in
  let i2 : 'I_3 := lift ord0 (lift ord0 ord0) in
  let l00 := Num.sqrt (M i0 i0) in
  let l10 := M i1 i0 / l00 in
  let l20 := M i2 i0 / l00 in
  let p1 := M i1 i1 - l10 ^+ 2 in
  let l11 := Num.sqrt p1 in
  let l21 := (M i2 i1 - l20 * l10) / l11 in
  let p2 := M i2 i2 - l20 ^+ 2 - l21 ^+ 2 in
  if [&& 0 < M i0 i0, 0 < p1 & 0 < p2] then
    Some (mx_of_rows 3 3 [:: [:: l00; 0; 0];
                            [:: l10; l11; 0];
                            [:: l20; l21; Num.sqrt p2]])
  else None.

(* chol3 returns the factor of a matrix that has one *)
Lemma chol3_factor (M : 'M[algR]_3) (a b c d e f : algR) :
  0 < a -> 0 < c -> 0 < f ->
  M ord0 ord0 = a ^+ 2 -> M (lift ord0 ord0) ord0 = b * a ->
  M (lift ord0 (lift ord0 ord0)) ord0 = d * a ->
  M (lift ord0 ord0) (lift ord0 ord0) = b ^+ 2 + c ^+ 2 ->
  M (lift ord0 (lift ord0 ord0)) (lift ord0 ord0) = d * b + e * c ->
  M (lift ord0 (lift ord0 ord0)) (lift ord0 (lift ord0 ord0))
    = d ^+ 2 + e ^+ 2 + f ^+ 2 ->
  chol3 M = Some (mx_of_rows 3 3 [:: [:: a; 0; 0]; [:: b; c; 0]; [:: d; e; f]]).
Proof.
move=> a0 c0 f0 m00 m10 m20 m11 m21 m22.
rewrite /chol3 m00 m10 m20 m11 m21 m22 sqrt_sq ?ltW //.
rewrite !mulfK ?gt_eqF // [b ^+ 2 + _]addrC addrK sqrt_sq ?ltW //.
rewrite [d * b + _]addrC addrK mulfK ?gt_eqF //.
have -> : d ^+ 2 + e ^+ 2 + f ^+ 2 - d ^+ 2 - e ^+ 2 = f ^+ 2 by ring.
by rewrite sqrt_sq ?ltW // !exprn_gt0.
Qed.

Definition LR3 : 'M[algR]_3 :=
  mx_of_rows 3 3 [:: [:: 1; 0; 0]; [:: -4; 3; 0]; [:: 48; -36; 25]].
Definition LO3 : 'M[algR]_3 :=
  mx_of_rows 3 3 [:: [:: 25; 0; 0]; [:: 4; 169; 0]; [:: 0; 12; 1]].

(* A = -I/2, B = LR3, C = LO3^T, D = 0: the gramians are LR3 LR3^T and
   LO3 LO3^T, and LO3^T LR3 = diag(15, 325, 65) W3 for the rotation W3    *)
Definition sys3 : LinearSystem algR 3 3 3 :=
  MkSys (- 2^-1)%:M LR3 LO3^T 0 true.

Definition W3 : 'M[algR]_3 :=
  mx_of_rows 3 3 [:: [:: 3 / 5; 4 / 5; 0];
                    [:: - (4 / 13); 3 / 13; 12 / 13];
                    [:: 48 / 65; - (36 / 65); 5 / 13]].
Definition d3 : 'rV[algR]_3 := mx_of_rows 1 3 [:: [:: 15; 325; 65]].

Local Notation R_3 := (control_gram (@solve_scalar 2) (@solve_scalar 2) sys3).
Local Notation O_3 := (observe_gram (@solve_scalar 2) (@solve_scalar 2) sys3).

Lemma solve_scalar_half3 (Q : 'M[algR]_3) :
  solve_scalar (- 2^-1)%:M (- Q) = Q.
Proof.
rewrite /solve_scalar mxE /= mulr1n scalerN -scaleNr.
by rewrite (_ : - _ = 1) ?scale1r //; field.
Qed.

Lemma sys3_R : R_3 = LR3 *m LR3^T.
Proof. by rewrite /control_gram /_H2P /= solve_scalar_half3. Qed.

Lemma sys3_O : O_3 = LO3 *m LO3^T.
Proof.
by rewrite /observe_gram /_H2P /= tr_scalar_mx solve_scalar_half3 !trmxK.
Qed.

Lemma chol3_R : chol3 R_3 = Some LR3.
Proof.
rewrite sys3_R; apply: chol3_factor; rewrite ?ltr0n //; mx2_eval; ring.
Qed.

Lemma chol3_O : chol3 O_3 = Some LO3.
Proof.
rewrite sys3_O; apply: chol3_factor; rewrite ?ltr0n //; mx2_eval; ring.
Qed.

Lemma LR3_unit : LR3 \in unitmx.
Proof.
pose X : 'M[algR]_3 :=
  mx_of_rows 3 3 [:: [:: 1; 0; 0]; [:: 4 / 3; 1 / 3; 0];
                    [:: 0; 12 / 25; 1 / 25]].
suff /mulmx1_unit[] : LR3 *m X = 1%:M by [].
by mx3_ext; field.
Qed.

Lemma LO3_unit : LO3 \in unitmx.
Proof.
pose X : 'M[algR]_3 :=
  mx_of_rows 3 3 [:: [:: 1 / 25; 0; 0]; [:: - (4 / 4225); 1 / 169; 0];
                    [:: 48 / 4225; - (12 / 169); 1]].
suff /mulmx1_unit[] : LO3 *m X = 1%:M by [].
by mx3_ext; field.
Qed.

Lemma sys3_product : LO3^T *m LR3 = diag_mx d3 *m W3.
Proof. by mx3_ext; field. Qed.

Lemma W3_orthogonal : W3 *m W3^T = 1%:M.
Proof. by mx3_ext; field. Qed.

(* a unit vector whose entries annihilate each other lies on an axis *)
Lemma axis3 (x y z : algR) :
  x * y = 0 -> x * z = 0 -> y * z = 0 -> x ^+ 2 + y ^+ 2 + z ^+ 2 = 1 ->
  [\/ [/\ x ^+ 2 = 1, y = 0 & z = 0], [/\ x = 0, y ^+ 2 = 1 & z = 0] |
      [/\ x = 0, y = 0 & z ^+ 2 = 1]].
Proof.
move=> /eqP xy /eqP xz /eqP yz; move: xy xz yz; rewrite !mulf_eq0.
have [->|x0] /= := eqVneq x 0.
  have [->|y0] /= := eqVneq y 0.
    by move=> _ _ _; rewrite expr0n /= !add0r => ?; constructor 3.
  by move=> _ _ /eqP-> ; rewrite !expr0n /= add0r addr0 => ?; constructor 2.
move=> /eqP-> /eqP-> _; rewrite !expr0n /= !addr0 => ?.
by constructor 1.
Qed.

Lemma sqr_eq1 (x : algR) : x ^+ 2 = 1 -> x = 1 \/ x = -1.
Proof.
by move=> /eqP; rewrite sqrf_eq1 => /orP[] /eqP->; [left | right].
Qed.

(* entry (0, 2) of a matrix whose rows are rows of W3 up to sign cannot
   equal its entry (2, 0)                                                 *)
Lemma axes_clash (x0 x1 x2 z0 z1 z2 : algR) :
  x0 * x1 = 0 -> x0 * x2 = 0 -> x1 * x2 = 0 ->
  x0 ^+ 2 + x1 ^+ 2 + x2 ^+ 2 = 1 ->
  z0 * z1 = 0 -> z0 * z2 = 0 -> z1 * z2 = 0 ->
  z0 ^+ 2 + z1 ^+ 2 + z2 ^+ 2 = 1 ->
  12 / 13 * x1 + 5 / 13 * x2 <> 3 / 5 * z0 - 4 / 13 * z1 + 48 / 65 * z2.
Proof.
move=> a b c d a' b' c' d'.
have [[/sqr_eq1 ex ey ez]|[ex /sqr_eq1 ey ez]|[ex ey /sqr_eq1 ez]] :=
  axis3 a b c d;
have [[/sqr_eq1 fx fy fz]|[fx /sqr_eq1 fy fz]|[fx fy /sqr_eq1 fz]] :=
  axis3 a' b' c' d';
move=> {a b c d a' b' c' d'};
repeat match goal with H : _ \/ _ |- _ => case: H => H end; lra.
Qed.

(* the squares of the singular values are distinct *)
Definition d3sq : 'rV[algR]_3 := \row_k (d3 0 k * d3 0 k).

Lemma d3sq_inj (k k' : 'I_3) : d3sq 0 k = d3sq 0 k' -> k = k'.
Proof.
case: k k' => [[|[|[|//]]] lt_k] [[|[|[|//]]] lt_k'];
  rewrite !mxE /= => h; try exact: val_inj; exfalso; move: h; lra.
Qed.

(* Every singular value decomposition of LO3^T LR3 lists, as the rows of
   its right factor, the rows of W3 up to order and sign: its right
   factor is not a symmetric matrix.                                      *)
Lemma sys3_svd_not_symmetric (U Vh : 'M[algR]_3) (s : 'rV[algR]_3) :
  LO3^T *m LR3 = U *m diag_mx s *m Vh ->
  U^T *m U = 1%:M -> Vh *m Vh^T = 1%:M -> Vh^T <> Vh.
Proof.
move=> eqM UtU VVt sym.
have WtW : W3^T *m W3 = 1%:M := mulmx1C W3_orthogonal.
pose Cm := Vh *m W3^T.
have CCt : Cm *m Cm^T = 1%:M.
  by rewrite /Cm trmx_mul trmxK mulmxA -[Vh *m _ *m _]mulmxA WtW mulmx1.
have CtC : Cm^T *m Cm = 1%:M := mulmx1C CCt.
have eqV : Vh = Cm *m W3 by rewrite /Cm -mulmxA WtW mulmx1.
pose d2 := d3sq.
pose s2 : 'rV[algR]_3 := \row_k (s 0 k * s 0 k).
have comm : Cm *m diag_mx d2 = diag_mx s2 *m Cm.
  have MtM1 : (LO3^T *m LR3)^T *m (LO3^T *m LR3) = Vh^T *m diag_mx s2 *m Vh.
    rewrite {1 2}eqM !trmx_mul tr_diag_mx.
    have -> : Vh^T *m (diag_mx s *m U^T) *m (U *m diag_mx s *m Vh) =
              Vh^T *m diag_mx s *m (U^T *m U) *m diag_mx s *m Vh.
      by rewrite !mulmxA.
    by rewrite UtU mulmx1 -[_ *m diag_mx s *m diag_mx s]mulmxA mulmx_diag.
  have MtM2 : (LO3^T *m LR3)^T *m (LO3^T *m LR3) = W3^T *m diag_mx d2 *m W3.
    rewrite sys3_product trmx_mul tr_diag_mx.
    have -> : W3^T *m diag_mx d3 *m (diag_mx d3 *m W3) =
              W3^T *m (diag_mx d3 *m diag_mx d3) *m W3 by rewrite !mulmxA.
    by rewrite mulmx_diag.
  have : Vh *m (W3^T *m diag_mx d2 *m W3) *m Vh^T
         = Vh *m (Vh^T *m diag_mx s2 *m Vh) *m Vh^T by rewrite -MtM1 MtM2.
  have -> : Vh *m (Vh^T *m diag_mx s2 *m Vh) *m Vh^T =
            (Vh *m Vh^T) *m diag_mx s2 *m (Vh *m Vh^T) by rewrite !mulmxA.
  have -> : Vh *m (W3^T *m diag_mx d2 *m W3) *m Vh^T =
            Cm *m diag_mx d2 *m Cm^T.
    by rewrite /Cm trmx_mul trmxK !mulmxA.
  rewrite VVt mul1mx mulmx1 => /(congr1 (mulmx^~ Cm)).
  by rewrite -mulmxA CtC mulmx1.
have orth i k k' : k != k' -> Cm i k * Cm i k' = 0.
  move=> neq_k.
  have ek : Cm i k * d2 0 k = s2 0 i * Cm i k.
    have := congr1 (fun M : 'M_3 => M i k) comm.
    by rewrite mul_mx_diag mul_diag_mx mxE [in RHS]mxE.
  have ek' : Cm i k' * d2 0 k' = s2 0 i * Cm i k'.
    have := congr1 (fun M : 'M_3 => M i k') comm.
    by rewrite mul_mx_diag mul_diag_mx mxE [in RHS]mxE.
  have : Cm i k * Cm i k' * (d2 0 k - d2 0 k') = 0.
    have -> : Cm i k * Cm i k' * (d2 0 k - d2 0 k') =
              Cm i k' * (Cm i k * d2 0 k) - Cm i k * (Cm i k' * d2 0 k').
      by ring.
    by rewrite ek ek'; ring.
  move/eqP; rewrite mulf_eq0 subr_eq0 => /orP[/eqP //|/eqP/d3sq_inj].
  by move=> eq_k; rewrite eq_k eqxx in neq_k.
clearbody Cm.
have unit_row i : Cm i ord0 ^+ 2 + Cm i (lift ord0 ord0) ^+ 2
                  + Cm i (lift ord0 (lift ord0 ord0)) ^+ 2 = 1.
  have := congr1 (fun M : 'M_3 => M i i) CCt.
  rewrite [LHS]mxE !big_ord_recl big_ord0 ![Cm^T _ _]mxE [RHS]mxE eqxx addr0.
  by rewrite !addrA -!expr2.
pose i0 : 'I_3 := ord0; pose i1 : 'I_3 := lift ord0 ord0.
pose i2 : 'I_3 := lift ord0 (lift ord0 ord0).
have e02 : Vh i0 i2 = 12 / 13 * Cm i0 i1 + 5 / 13 * Cm i0 i2.
  rewrite eqV [LHS]mxE !big_ord_recl big_ord0 ![W3 _ _]mxE /=.
  by rewrite mulr0 add0r addr0 ![Cm _ _ * _]mulrC.
have e20 : Vh i2 i0 = 3 / 5 * Cm i2 i0 - 4 / 13 * Cm i2 i1
                      + 48 / 65 * Cm i2 i2.
  rewrite eqV [LHS]mxE !big_ord_recl big_ord0 ![W3 _ _]mxE /=.
  by rewrite addr0 ![Cm _ _ * _]mulrC mulNr addrA.
have := congr1 (fun M : 'M_3 => M i0 i2) sym.
rewrite mxE e02 e20 => /esym.
by apply: (@axes_clash (Cm i0 i0) (Cm i0 i1) (Cm i0 i2)
                       (Cm i2 i0) (Cm i2 i1) (Cm i2 i2));
   rewrite ?orth ?unit_row.
Qed.

Lemma sys3_posdef : posdef R_3 /\ posdef O_3.
Proof.
rewrite sys3_R sys3_O; split; apply: posdef_gram.
  exact: LR3_unit.
exact: LO3_unit.
Qed.

Lemma diag_pow_neg_half_unit (s : 'rV[algR]_3) :
  (forall i, 0 < s 0 i) -> diag_mx (map_mx pow_neg_half s) \in unitmx.
Proof.
move=> s_gt0; rewrite unitmxE det_diag unitfE; apply/prodf_neq0 => i _.
by rewrite mxE /pow_neg_half invr_eq0 sqrtr_eq0 -ltNge.
Qed.

(* sys3 is analog, its gramians are positive definite and have the
   Cholesky factors LR3 and LO3; whatever decomposition the SVD routine
   returns within its contract, no V serves in both the SVD equation
   LO^T LR = U diag(s) V^T and T = LR V^T diag(s^(-1/2))                  *)
Lemma balancing_as_specified_fails_sys3 :
  [/\ analog sys3, posdef R_3 /\ posdef O_3,
      chol3 R_3 = Some LR3 /\ chol3 O_3 = Some LO3 &
      ~ exists svd,
          svd_spec svd (LO3^T *m LR3) /\
          balancing_as_specified (@solve_scalar 2) (@solve_scalar 2) chol3
            svd sys3].
Proof.
split=> //; first exact: sys3_posdef.
  by split; [exact: chol3_R | exact: chol3_O].
case=> svd [spec [LR [LO [U [s [V [T [Tinv]]]]]]]].
rewrite chol3_R chol3_O /balanced_transformation /= /run_cholesky.
rewrite chol3_R chol3_O /=; move: spec; rewrite /svd_spec.
case: (svd _) => [[U' s'] Vh'] [eqM' UtU VVt s_ge0].
case=> [[[<-] [<-]] eqM [<- <- es]]; rewrite -{s}es in eqM * => -[eqT eqTinv] _.
have Mu : LO3^T *m LR3 \in unitmx.
  by rewrite unitmx_mul unitmx_tr LO3_unit LR3_unit.
have s_gt0 := singular_values_pos Mu eqM' s_ge0.
have Du := diag_pow_neg_half_unit s_gt0.
have Uu : U' \in unitmx.
  by have := unitmx1 algR 3; rewrite -UtU unitmx_mul => /andP[].
have Su : diag_mx s' \in unitmx.
  rewrite unitmxE det_diag unitfE; apply/prodf_neq0 => i _.
  by rewrite gt_eqF.
have eqV : V = Vh'.
  move: eqT; rewrite scale_colsE => /(can_inj (mulmxK Du)).
  by move/(can_inj (mulKmx LR3_unit))/trmx_inj.
have eqU : U = U'.
  move: eqTinv; rewrite scale_rowsE mulmxA.
  have LOtu : LO3^T \in unitmx by rewrite unitmx_tr LO3_unit.
  move/(can_inj (mulmxK LOtu))/(can_inj (mulKmx Du))/trmx_inj.
  by [].
move: eqM; rewrite eqV eqU {1}eqM' -!mulmxA.
move=> /(can_inj (mulKmx Uu)) /(can_inj (mulKmx Su)) /esym.
exact: sys3_svd_not_symmetric eqM' UtU VVt.
Qed.

(* ====================================================================== *)
(*  The checks and the state norm on concrete systems                     *)
(* ====================================================================== *)

(* A P A^T - P = -Q for a scalar matrix A = a I: P = Q / (1 - a^2) *)
Definition solve_d_scalar (k : nat) (A Q : 'M[algR]_k.+1) : 'M[algR]_k.+1 :=
  (1 - A 0 0 ^+ 2)^-1 *: Q.

(* the integrator pole moved to the right half-plane: 1 / (s - 1) *)
Definition unstable : LinearSystem algR 1 1 1 :=
  MkSys 1%:M 1%:M 1%:M 0 true.

(* the lowpass taken for a discrete-time system *)
Definition digital : LinearSystem algR 1 1 1 :=
  MkSys (-1)%:M 1%:M 1%:M 0 false.

Local Notation l1_lp :=
  (l1_norm eig1 (@solve_scalar 0) fminbound1 (@c2d0 1) (@impulse0 1) dcgain1).

(* the three outcomes of the checks of l1_norm *)
Lemma l1_norm_checks_examples :
  [/\ l1_lp 0 digital (10 ^- 6) (2 ^ 18)
      = Some (Raise (ValueError msg_not_analog None)),
      l1_lp 0 unstable (10 ^- 6) (2 ^ 18)
      = Some (Raise (ValueError msg_unstable (Some 1))) &
      exists v, l1_lp (trunc_log 2 (2 ^ 18 %/ 16)).+1 lowpass (10 ^- 6) (2 ^ 18)
                = Some (Ok v)].
Proof.
split.
- have [chk _ _ _] := @l1_norm_checks algR 1 eig1 (@solve_scalar 0) fminbound1
    (@c2d0 1) (@impulse0 1) dcgain1 digital (10 ^- 6) (2 ^ 18) 0.
  exact: chk.
- have [_ chk _ _] := @l1_norm_checks algR 1 eig1 (@solve_scalar 0) fminbound1
    (@c2d0 1) (@impulse0 1) dcgain1 unstable (10 ^- 6) (2 ^ 18) 1.
  by apply: chk; rewrite //= !mxE.
- have [_ _ _ chk] := @l1_norm_checks algR 1 eig1 (@solve_scalar 0) fminbound1
    (@c2d0 1) (@impulse0 1) dcgain1 lowpass (10 ^- 6) (2 ^ 18) (-1).
  exact: chk isT lowpass_stable _ (leqnn _).
Defined.

(* state_norm on the lowpass: sqrt(1/2) for 'H2', an error for 'Hinf' *)
Lemma state_norm_contract_lowpass :
  state_norm (@solve_scalar 0) (@solve_d_scalar 0) lowpass "H2"
  = Ok (const_mx (Num.sqrt (1 / 2))) /\
  state_norm (@solve_scalar 0) (@solve_d_scalar 0) lowpass "Hinf"
  = Raise (NotImplementedError msg_norm_H2).
Proof.
have [[v -> eqv] err] :=
  @state_norm_contract algR 1 1 1 (@solve_scalar 0) (@solve_d_scalar 0)
    lowpass "Hinf".
split; last by case: err.
congr Ok; apply/rowP=> i; rewrite eqv [RHS]mxE !ord1; congr Num.sqrt.
rewrite /control_gram /_H2P /= /solve_scalar; mx2_eval.
by field.
Defined.

(* sys_b taken for a discrete-time system is refused *)
Definition sys_b_digital : LinearSystem algR 2 2 2 :=
  MkSys (ss_A sys_b) (ss_B sys_b) (ss_C sys_b) (ss_D sys_b) false.

Lemma balanced_transformation_discrete_sys_b :
  balanced_transformation (@solve_scalar 1) (@solve_d_scalar 1) chol2 svd_b
    sys_b_digital
  = Raise (NotImplementedError msg_digital).
Proof.
exact: (@balanced_transformation_discrete algR 2 2 2 (@solve_scalar 1)
          (@solve_d_scalar 1) chol2 svd_b sys_b_digital isT).
Defined.

(* ====================================================================== *)
(*  The further properties on the worked instances                        *)
(* ====================================================================== *)

(* the solver of the instances solves the two Lyapunov equations of sys_b,
   whose A is the scalar matrix -1/2 *)
Lemma sys_b_lyapunov :
  H2P_solver_spec (@solve_scalar 1) (@solve_scalar 1)
    (ss_A sys_b) (ss_B sys_b) (analog sys_b) /\
  H2P_solver_spec (@solve_scalar 1) (@solve_scalar 1)
    (ss_A sys_b)^T (ss_C sys_b)^T (analog sys_b).
Proof.
rewrite /H2P_solver_spec /lyapunov_spec /= !tr_scalar_mx mulmx1.
have half2 : - 2^-1 + - 2^-1 = -1 :> algR by field.
rewrite !solve_scalar_half !mul_scalar_mx !mul_mx_scalar -scalerDl half2.
split; first by rewrite scaleN1r.
by rewrite scale1r scalemx1 -raddfD /= half2 raddfN.
Qed.

(* the gramians of sys_b solve its Lyapunov equations *)
Lemma gramian_equations_sys_b :
  ss_A sys_b *m R_b + R_b *m (ss_A sys_b)^T
    = - (ss_B sys_b *m (ss_B sys_b)^T) /\
  (ss_A sys_b)^T *m O_b + O_b *m ss_A sys_b
    = - ((ss_C sys_b)^T *m ss_C sys_b).
Proof.
have [lyP lyQ] := sys_b_lyapunov.
exact: (@gramian_equations algR 2 2 2 (@solve_scalar 1) (@solve_scalar 1)
          sys_b lyP lyQ).
Defined.

(* the transformation computed for sys_b balances its gramians *)
Lemma balanced_gramians_sys_b :
  exists T Tinv s,
    [/\ balance_b sys_b = Ok (T, Tinv, s),
        Tinv *m R_b *m Tinv^T = diag_mx s,
        T^T *m O_b *m T = diag_mx s &
        forall i, 0 < s 0 i].
Proof.
have [pdR pdO] := sys_b_posdef; have [chR chO] := sys_b_cholesky.
exact: (@balanced_gramians algR 2 2 2 (@solve_scalar 1) (@solve_scalar 1)
          chol2 svd_b sys_b isT pdR pdO chR chO sys_b_svd).
Defined.

(* and diag(S) solves the Lyapunov equations of the transformed sys_b *)
Lemma balanced_realization_sys_b :
  exists T Tinv s,
    balance_b sys_b = Ok (T, Tinv, s) /\
    let Ab := Tinv *m ss_A sys_b *m T in
    let Bb := Tinv *m ss_B sys_b in
    let Cb := ss_C sys_b *m T in
    Ab *m diag_mx s + diag_mx s *m Ab^T = - (Bb *m Bb^T) /\
    Ab^T *m diag_mx s + diag_mx s *m Ab = - (Cb^T *m Cb).
Proof.
have [pdR pdO] := sys_b_posdef; have [chR chO] := sys_b_cholesky.
have [lyP lyQ] := sys_b_lyapunov.
exact: (@balanced_realization algR 2 2 2 (@solve_scalar 1) (@solve_scalar 1)
          chol2 svd_b sys_b isT pdR pdO chR chO sys_b_svd lyP lyQ).
Defined.

(* sys_b with its input matrix set to zero: no state can be reached, the
   controllability gramian is the zero matrix                             *)
Definition sys_u : LinearSystem algR 2 2 2 :=
  MkSys (- 2^-1)%:M 0 1%:M 0 true.

Local Notation R_u := (control_gram (@solve_scalar 1) (@solve_scalar 1) sys_u).
Local Notation O_u := (observe_gram (@solve_scalar 1) (@solve_scalar 1) sys_u).

Lemma sys_u_R : R_u = 0.
Proof. by rewrite /control_gram /_H2P /= mul0mx oppr0 /solve_scalar scaler0. Qed.

Lemma sys_u_O : O_u = 1%:M.
Proof.
rewrite /observe_gram /_H2P /= tr_scalar_mx solve_scalar_half.
by rewrite !trmx1 mulmx1.
Qed.

Lemma zero_not_posdef : ~ posdef (0 : 'M[algR]_2).
Proof.
case=> _ /(_ (const_mx 1)); rewrite mulmx0 mul0mx mxE ltxx => h.
suff /h : const_mx 1 != 0 :> 'rV[algR]_2 by [].
by apply/eqP => /rowP/(_ ord0); rewrite !mxE; apply/eqP; rewrite oner_eq0.
Qed.

Lemma one_posdef : posdef (1%:M : 'M[algR]_2).
Proof.
by rewrite -[1%:M]mulmx1 -{2}[1%:M]trmx1; apply: posdef_gram; rewrite unitmx1.
Qed.

Lemma chol2_one : chol2 1%:M = Some 1%:M.
Proof.
rewrite /chol2; mx2_eval.
have -> : 1 - 0 ^+ 2 / 1 = (1 : algR) by field.
rewrite ltr01 /= sqrtr1; congr Some.
by mx2_ext; field.
Qed.

(* balanced_transformation raises LinAlgError on sys_u *)
Lemma balanced_transformation_outcome_sys_u :
  balance_b sys_u = Raise (LinAlgError msg_not_posdef).
Proof.
have symR : R_u^T = R_u by rewrite sys_u_R trmx0.
have symO : O_u^T = O_u by rewrite sys_u_O trmx1.
have chR : cholesky_spec chol2 R_u by rewrite sys_u_R => /zero_not_posdef.
have chO : cholesky_spec chol2 O_u.
  rewrite sys_u_O => _; exists 1%:M; split; first exact: chol2_one.
    exact: scalar_mx_is_trig.
  by rewrite trmx1 mulmx1.
have rfR : cholesky_refuses chol2 R_u.
  by move=> _ L; rewrite sys_u_R /chol2 mxE ltxx.
have rfO : cholesky_refuses chol2 O_u.
  by move=> _ L _; rewrite sys_u_O; exact: one_posdef.
have := @balanced_transformation_outcome algR 2 2 2 (@solve_scalar 1)
          (@solve_scalar 1) chol2 svd_b sys_u isT symR symO chR chO rfR rfO.
case: (balance_b sys_u) => [x [pdR _]|e [-> _]] //.
by case: zero_not_posdef; rewrite -sys_u_R.
Defined.

Lemma s0_entries : entries s0 = [:: 16; 9].
Proof. by rewrite /entries enum_ordSl enum_ordSl enum_ord0 /=; mx2_eval. Qed.

(* svd_b lists 16 before 9: hankel(sys_b) is S entry by entry *)
Lemma hankel_is_balanced_S_sys_b :
  exists T Tinv s,
    balance_b sys_b = Ok (T, Tinv, s) /\
    hankel (@solve_scalar 1) (@solve_scalar 1) eig_b sys_b = entries s.
Proof.
have [pdR pdO] := sys_b_posdef; have [chR chO] := sys_b_cholesky.
apply: (@hankel_is_balanced_S algR 2 2 2 (@solve_scalar 1) (@solve_scalar 1)
          chol2 svd_b sys_b eig_b isT pdR pdO chR chO _ sys_b_eig).
move=> LR LO cR cO; split; first exact: sys_b_svd.
by rewrite /svd_b /= s0_entries /= andbT; lra.
Defined.

(* --- l1_norm on the lowpass and on the bandpass ------------------------ *)

Local Notation lp_runs :=
  (loop_runs (@solve_scalar 0) fminbound1 (@c2d0 1) (@impulse0 1) dcgain1
             lowpass).

(* the schedule of N and T on the lowpass, default rtol and max_length *)
Lemma sampling_schedule_lowpass :
  exists k st,
    [/\ lp_runs (10 ^- 6) (2 ^ 18) (-1) lp_init k (Ok st),
        st_N st = (16 * 2 ^ k)%N,
        0 < st_T st &
        st_T st / (st_N st)%:R <= (- 1 / -1) / 16].
Proof.
have [k [st [_ run _ _]]] :=
  loop_from_init (@solve_scalar 0) fminbound1 (@c2d0 1) (@impulse0 1) dcgain1
    lowpass (10 ^- 6) (2 ^ 18) (-1).
have a_lt0 : -1 < 0 :> algR by lra.
have [eqN _ T_gt0 /andP[_ le_dt]] :=
  @sampling_schedule algR 1 (@solve_scalar 0) fminbound1 (@c2d0 1)
    (@impulse0 1) dcgain1 lowpass (10 ^- 6) (2 ^ 18) (-1) k st a_lt0 run.
by exists k, st.
Defined.

(* one pass over the lowpass, rtol = 0 and max_length = 16: the estimate
   is at least |dcgain| = 1 *)
Lemma l1_norm_estimate_range_lowpass :
  exists k st,
    [/\ (0 < k)%N /\ lp_runs 0 16 (-1) lp_init k (Ok st),
        forall fuel, (k <= fuel)%N ->
          l1_lp fuel lowpass 0 16 = Some (Ok (l1_return lowpass st)),
        st_L st + `|ss_D lowpass 0 0| <= (l1_return lowpass st).1
          <= st_U st + `|ss_D lowpass 0 0|,
        `|dcgain1 lowpass 0 0| <= (l1_return lowpass st).1 &
        forall h, (l1_return lowpass st).2 = Finite h -> 0 <= h].
Proof.
exact: (@l1_norm_estimate_range algR 1 eig1 (@solve_scalar 0) fminbound1
          (@c2d0 1) (@impulse0 1) dcgain1 lowpass 0 16 (-1) isT lowpass_stable
          lowpass_guard).
Defined.

(* the lowpass has dcgain 1 and D = 0: every quotient by L is proper *)
Lemma l1_norm_proper_division_lowpass :
  exists k st,
    let h := 2^-1 * (st_U st - st_L st) / st_L st in
    [/\ lp_runs (10 ^- 6) (2 ^ 18) (-1) lp_init k (Ok st),
        forall fuel, (k <= fuel)%N ->
          l1_lp fuel lowpass (10 ^- 6) (2 ^ 18)
          = Some (Ok ((st_U st + st_L st) / 2 + `|ss_D lowpass 0 0|,
                      Finite h)) &
        (st_N st <= 2 ^ 18)%N -> h < 10 ^- 6].
Proof.
have G_n0 : dcgain1 lowpass 0 0 != ss_D lowpass 0 0.
  by rewrite /= !mxE /= oner_eq0.
by have [_] := @l1_norm_proper_division algR 1 eig1 (@solve_scalar 0)
                 fminbound1 (@c2d0 1) (@impulse0 1) dcgain1 lowpass (10 ^- 6)
                 (2 ^ 18) (-1) isT lowpass_stable G_n0.
Defined.

(* the bandpass with dcgain = D and an impulse response that is sampled
   as zero: L is zero before the first pass and still zero after it *)
Lemma lower_bound_zero_bandpass :
  exists st',
    refine (@solve_scalar 1) fminbound1 (@c2d0 2) (@impulse0 2) (@dcgain_D 2)
      bandpass (-1) bp_init = Ok st' /\
    st_L st' = 0.
Proof.
have [|c _ eqs] :=
  refine_ok (@solve_scalar 1) fminbound1 (@c2d0 2) (@impulse0 2) (@dcgain_D 2)
    bandpass (-1) (st := bp_init); first by [].
exists (update bp_init c); split=> //.
have [_ /esym] :=
  @lower_bound_zero algR 2 (@solve_scalar 1) fminbound1 (@c2d0 2) (@impulse0 2)
    (@dcgain_D 2) bandpass (10 ^- 6) (2 ^ 18) (-1) bp_init (update bp_init c)
    (ReachInit _ _ _ _ _ _ _ _ _) eqs.
rewrite /impulse0 all_nseq eqxx orbT !andbT.
have -> : st_L bp_init = 0 by rewrite /= /G0 subrr mxE normr0.
by rewrite /dcgain_D !eqxx => /esym/eqP.
Defined.

(* the lowpass with the collaborators of this instance: the bounds
   bracket 1, and the returned pair certifies it *)
Lemma l1_norm_certificate_lowpass :
  exists k st,
    [/\ lp_runs (10 ^- 6) (2 ^ 18) (-1) lp_init k (Ok st),
        forall fuel, (k <= fuel)%N ->
          l1_lp fuel lowpass (10 ^- 6) (2 ^ 18)
          = Some (Ok (l1_return lowpass st)),
        st_L st <= 1 <= st_U st &
        `|(l1_return lowpass st).1 - (1 + `|ss_D lowpass 0 0|)|
          <= (st_U st - st_L st) / 2].
Proof.
have [k [st [run ret brk rad _]]] :=
  @l1_norm_certificate algR 1 eig1 (@solve_scalar 0) fminbound1 (@c2d0 1)
    (@impulse0 1) dcgain1 lowpass (10 ^- 6) (2 ^ 18) (-1) 1 isT lowpass_stable
    (lowpass_sound _ _).
by exists k, st.
Defined.

(* raising max_length from 16 to 32 on the lowpass *)
Lemma l1_norm_refines_lowpass :
  exists k1 st1 k2 st2,
    [/\ lp_runs 0 16 (-1) lp_init k1 (Ok st1) /\
        lp_runs 0 32 (-1) lp_init k2 (Ok st2),
        (k1 <= k2)%N &
        st_L st1 <= st_L st2 /\ st_U st2 <= st_U st1].
Proof.
have [k1 [st1 [k2 [st2 [runs12 _ le_k le_LU _]]]]] :=
  @l1_norm_refines algR 1 eig1 (@solve_scalar 0) fminbound1 (@c2d0 1)
    (@impulse0 1) dcgain1 lowpass 0 16 0 32 (-1) 1 isT lowpass_stable isT
    (lexx 0) (lowpass_sound _ _).
by exists k1, st1, k2, st2.
Defined.

(* rtol = 0 on the lowpass: the loop stops only when N has passed
   max_length = 16 *)
Lemma l1_norm_zero_tolerance_lowpass :
  exists k st,
    [/\ lp_runs 0 16 (-1) lp_init k (Ok st),
        st_N st = (16 * 2 ^ k)%N &
        (16 < st_N st)%N].
Proof.
have G_n0 : dcgain1 lowpass 0 0 != ss_D lowpass 0 0.
  by rewrite /= !mxE /= oner_eq0.
have LU0 : `|G0 dcgain1 lowpass|
           <= fopt (@solve_scalar 0) fminbound1 lowpass (-1).
  by rewrite lowpass_G0 lowpass_fopt normr1.
have [k [st [run _ eqN gtN _]]] :=
  @l1_norm_zero_tolerance algR 1 eig1 (@solve_scalar 0) fminbound1 (@c2d0 1)
    (@impulse0 1) dcgain1 lowpass 0 16 (-1) isT lowpass_stable (lexx 0) G_n0
    LU0.
by exists k, st.
Defined.

(* the lowpass with a feedthrough of 3, and a dcgain that follows D *)
Definition lowpass_D : LinearSystem algR 1 1 1 :=
  MkSys (-1)%:M 1%:M 1%:M 3%:M true.

Definition dcgain_lp (sys : LinearSystem algR 1 1 1) : 'M[algR]_1 :=
  1%:M + ss_D sys.

Lemma l1_norm_feedthrough_lowpass :
  l1_norm eig1 (@solve_scalar 0) fminbound1 (@c2d0 1) (@impulse0 1) dcgain_lp
    15 lowpass_D (10 ^- 6) (2 ^ 18) =
  match l1_norm eig1 (@solve_scalar 0) fminbound1 (@c2d0 1) (@impulse0 1)
          dcgain_lp 15 lowpass (10 ^- 6) (2 ^ 18) with
  | Some (Ok (est, hw)) =>
      Some (Ok (est - `|ss_D lowpass 0 0| + `|ss_D lowpass_D 0 0|, hw))
  | r => r
  end.
Proof.
apply: (@l1_norm_feedthrough algR 1 eig1 (@solve_scalar 0) fminbound1
          (@c2d0 1) (@impulse0 1) dcgain_lp lowpass lowpass_D) => //.
by rewrite /dcgain_lp /= !addrK.
Defined.
